(** * Outlook MCP client: a shallow embedding of [scripts/mcp-client.ts]
    and of the command handlers of [scripts/cli.ts]

    The development follows the layers of the TypeScript source:
    - [Js]: the fragment of the JavaScript string and object primitives the
      client relies on ([toLowerCase], [includes], [startsWith], truthiness,
      object spread);
    - [Auth]: the authentication-error classifier [isAuthError];
    - [Json]: parsed JSON values and a reference [JSON.parse];
    - [Cache]: the consumed contract of the plugin cache;
    - [Mcp], [Client]: the response envelope, [callTool], the read and write
      façade methods; [Cli]: requests the command handlers make;
    - [Session]: the connection guard ([connect], [doConnect], [checkAuth],
      [disconnect]) as a transition system over event-loop turns;
    - [Requests], [Scenario]: what each request asks of the cache and of the
      server, and concrete servers for the examples.

    Part I holds the definitions, Part II the facts proved about them. *)

From Stdlib Require Import Ascii String ZArith Lia Bool List.
From stdpp Require Import base strings list sorting pretty gmap.

Open Scope string_scope.

(** ** JavaScript strings *)

Module Js.

(** Strings are sequences of 8-bit characters.  The vocabulary of the client
    is plain ASCII; [toLowerCase] maps [A]..[Z] to [a]..[z] and leaves every
    other character alone. *)
Definition lower_char (c : ascii) : ascii :=
  let n := nat_of_ascii c in
  if Nat.leb 65 n && Nat.leb n 90 then ascii_of_nat (n + 32) else c.

Fixpoint toLowerCase (s : string) : string :=
  match s with
  | EmptyString => EmptyString
  | String c r => String (lower_char c) (toLowerCase r)
  end.

(** [s.startsWith(p)] *)
Fixpoint startsWith (s p : string) {struct p} : bool :=
  match p, s with
  | EmptyString, _ => true
  | String _ _, EmptyString => false
  | String a p', String b s' => if decide (a = b) then startsWith s' p' else false
  end.

(** [s.includes(sub)]: [sub] occurs at some position of [s]. *)
Fixpoint includes (s sub : string) : bool :=
  startsWith s sub ||
  match s with
  | EmptyString => false
  | String _ r => includes r sub
  end.

(** [sub] is a substring of [s]. *)
Definition occurs (sub s : string) : Prop :=
  ∃ pre post, s = pre +:+ sub +:+ post.

(** *** Values and option objects *)

(** The values the façade receives from its callers: [undefined], integers
    (the command surface validates [top] and [skip] as integers) and
    strings. *)
Inductive jsval :=
| VUndef
| VNum (n : Z)
| VStr (s : string).

Global Instance jsval_eq_dec : EqDecision jsval.
Proof. solve_decision. Defined.

(** JavaScript truthiness: [undefined], [0] and the empty string are falsy. *)
Definition truthy (v : jsval) : bool :=
  match v with
  | VUndef => false
  | VNum n => negb (Z.eqb n 0)
  | VStr s => negb (String.eqb s "")
  end.

(** An object is the list of its own enumerable properties in insertion
    order; a property can hold [undefined]. *)
Definition obj := list (string * jsval).

Definition keys (o : obj) : list string := map fst o.

Definition has_key (o : obj) (k : string) : bool :=
  bool_decide (k ∈ keys o).

(** [o[k]], [undefined] for a missing property. *)
Fixpoint get (o : obj) (k : string) : jsval :=
  match o with
  | [] => VUndef
  | (k', v) :: r => if decide (k' = k) then v else get r k
  end.

(** [o[k] = v]: an existing property keeps its position. *)
Fixpoint set (o : obj) (k : string) (v : jsval) : obj :=
  match o with
  | [] => [(k, v)]
  | (k', v') :: r => if decide (k' = k) then (k, v) :: r else (k', v') :: set r k v
  end.

(** [{ ...base, ...src }]: every own property of [src] is copied, whatever
    its value. *)
Definition spread (base src : obj) : obj :=
  fold_left (λ acc kv, set acc kv.1 kv.2) src base.

(** [options?.k] and [options || {}] for an optional options object. *)
Definition opt_get (options : option obj) (k : string) : jsval :=
  match options with
  | None => VUndef
  | Some o => get o k
  end.

Definition or_empty (options : option obj) : obj :=
  match options with
  | None => []
  | Some o => o
  end.

(** [if (v) args[k] = v;] *)
Definition set_if_truthy (args : obj) (k : string) (v : jsval) : obj :=
  if truthy v then set args k v else args.

End Js.

(** ** The authentication-error classifier *)

Module Auth.
Import Js.

(** The literals of [isAuthError], in source order. *)
Definition auth_vocabulary : list string :=
  [ "no valid token"; "token expired"; "unauthorized"; "401";
    "invalid_grant"; "interaction_required"; "login required";
    "unauthenticated"; "invalidauthenticationtoken";
    "lifetimevalidationfailed"; "compacttoken";
    "authorization_identitynotfound"; "silent token acquisition failed" ].

Definition isAuthError (text : string) : bool :=
  let lower := toLowerCase text in
  includes lower "no valid token" ||
  includes lower "token expired" ||
  includes lower "unauthorized" ||
  includes lower "401" ||
  includes lower "invalid_grant" ||
  includes lower "interaction_required" ||
  includes lower "login required" ||
  includes lower "unauthenticated" ||
  includes lower "invalidauthenticationtoken" ||
  includes lower "lifetimevalidationfailed" ||
  includes lower "compacttoken" ||
  includes lower "authorization_identitynotfound" ||
  includes lower "silent token acquisition failed".





End Auth.

(** ** JSON values and a reference [JSON.parse] *)

Module Json.
Import Js.

#[local] Set Warnings "-register-all".

(** Parsed JSON.  Numbers are kept as their literal: the client never looks
    inside a number, it only hands parsed values back to its caller. *)
Inductive json :=
| JNull
| JBool (b : bool)
| JNum (literal : string)
| JStr (s : string)
| JArr (items : list json)
| JObj (members : list (string * json)).

(** A later duplicate of a member name overrides an earlier one. *)
Fixpoint last_binding (ms : list (string * json)) (k : string) : option json :=
  match ms with
  | [] => None
  | (k', v) :: r =>
    match last_binding r k with
    | Some v' => Some v'
    | None => if decide (k' = k) then Some v else None
    end
  end.

(** [parsed?.k]: only objects carry the members the client asks for;
    [None] stands for [undefined]. *)
Definition prop (j : json) (k : string) : option json :=
  match j with
  | JObj ms => last_binding ms k
  | _ => None
  end.

(** [x === true] and [x === "s"] *)
Definition is_true (x : option json) : bool :=
  match x with
  | Some (JBool true) => true
  | _ => false
  end.

Definition is_str (x : option json) (s : string) : bool :=
  match x with
  | Some (JStr t) => String.eqb t s
  | _ => false
  end.

Definition dquote : ascii := ascii_of_nat 34.

(** [quoted s] is [s] between double quotes. *)
Definition quoted (s : string) : string :=
  String dquote (s +:+ String dquote EmptyString).

Definition is_ws (c : ascii) : bool :=
  let n := nat_of_ascii c in
  Nat.eqb n 32 || Nat.eqb n 9 || Nat.eqb n 10 || Nat.eqb n 13.

Fixpoint skip_ws (s : string) : string :=
  match s with
  | String c r => if is_ws c then skip_ws r else s
  | EmptyString => s
  end.

Definition is_digit (c : ascii) : bool :=
  let n := nat_of_ascii c in Nat.leb 48 n && Nat.leb n 57.

Fixpoint span_digits (s : string) : string * string :=
  match s with
  | String c r =>
    if is_digit c then let '(d, r') := span_digits r in (String c d, r')
    else (EmptyString, s)
  | EmptyString => (EmptyString, EmptyString)
  end.

Definition nonempty_digits (s : string) : option (string * string) :=
  let '(d, r) := span_digits s in
  match d with
  | EmptyString => None
  | _ => Some (d, r)
  end.

Definition parse_int_part (s : string) : option (string * string) :=
  match s with
  | String "0" r => Some ("0", r)
  | _ => nonempty_digits s
  end.

Definition parse_frac (s : string) : option (string * string) :=
  match s with
  | String "." r => '(d, r') ← nonempty_digits r; Some (String "." d, r')
  | _ => Some (EmptyString, s)
  end.

Definition parse_exp (s : string) : option (string * string) :=
  match s with
  | String c r =>
    if Ascii.eqb c "e" || Ascii.eqb c "E" then
      let '(sign, r1) :=
        match r with
        | String "+" r1 => ("+", r1)
        | String "-" r1 => ("-", r1)
        | _ => (EmptyString, r)
        end in
      '(d, r2) ← nonempty_digits r1; Some (String c (sign +:+ d), r2)
    else Some (EmptyString, s)
  | EmptyString => Some (EmptyString, s)
  end.

Definition parse_number (s : string) : option (string * string) :=
  let '(sign, r0) :=
    match s with
    | String "-" r => ("-", r)
    | _ => (EmptyString, s)
    end in
  '(i, r1) ← parse_int_part r0;
  '(f, r2) ← parse_frac r1;
  '(e, r3) ← parse_exp r2;
  Some (sign +:+ i +:+ f +:+ e, r3).

Definition hex_val (c : ascii) : option N :=
  let n := N_of_ascii c in
  if N.leb 48 n && N.leb n 57 then Some (n - 48)%N
  else if N.leb 97 n && N.leb n 102 then Some (n - 87)%N
  else if N.leb 65 n && N.leb n 70 then Some (n - 55)%N
  else None.

Definition hex4 (a b c d : ascii) : option N :=
  x ← hex_val a; y ← hex_val b; z ← hex_val c; w ← hex_val d;
  Some (((x * 16 + y) * 16 + z) * 16 + w)%N.

(** The escaped code unit, written back as UTF-8 bytes. *)
Definition utf8 (n : N) : string :=
  if N.ltb n 128 then String (ascii_of_N n) EmptyString
  else if N.ltb n 2048 then
    String (ascii_of_N (192 + n / 64)) (String (ascii_of_N (128 + n mod 64)) EmptyString)
  else
    String (ascii_of_N (224 + n / 4096))
      (String (ascii_of_N (128 + (n / 64) mod 64))
         (String (ascii_of_N (128 + n mod 64)) EmptyString)).

Definition simple_escape (e : ascii) : option ascii :=
  if Ascii.eqb e dquote then Some dquote
  else if Ascii.eqb e "\" then Some "\"%char
  else if Ascii.eqb e "/" then Some "/"%char
  else if Ascii.eqb e "b" then Some (ascii_of_nat 8)
  else if Ascii.eqb e "f" then Some (ascii_of_nat 12)
  else if Ascii.eqb e "n" then Some (ascii_of_nat 10)
  else if Ascii.eqb e "r" then Some (ascii_of_nat 13)
  else if Ascii.eqb e "t" then Some (ascii_of_nat 9)
  else None.

(** The characters of a string literal after its opening quote. *)
Fixpoint parse_string_body (s : string) : option (string * string) :=
  match s with
  | EmptyString => None
  | String c r =>
    if Ascii.eqb c dquote then Some (EmptyString, r)
    else if Ascii.eqb c "\" then
      match r with
      | String e r1 =>
        match simple_escape e with
        | Some ch => '(t, r2) ← parse_string_body r1; Some (String ch t, r2)
        | None =>
          if Ascii.eqb e "u" then
            match r1 with
            | String h1 (String h2 (String h3 (String h4 r2))) =>
              n ← hex4 h1 h2 h3 h4;
              '(t, r3) ← parse_string_body r2;
              Some (utf8 n +:+ t, r3)
            | _ => None
            end
          else None
        end
      | EmptyString => None
      end
    else if Nat.ltb (nat_of_ascii c) 32 then None
    else '(t, r1) ← parse_string_body r; Some (String c t, r1)
  end.

Definition parse_literal (s : string) : option (json * string) :=
  match s with
  | String "t" (String "r" (String "u" (String "e" r))) => Some (JBool true, r)
  | String "f" (String "a" (String "l" (String "s" (String "e" r)))) => Some (JBool false, r)
  | String "n" (String "u" (String "l" (String "l" r))) => Some (JNull, r)
  | _ => '(n, r) ← parse_number s; Some (JNum n, r)
  end.

Fixpoint parse_value (fuel : nat) (s : string) : option (json * string) :=
  match fuel with
  | O => None
  | S f =>
    match skip_ws s with
    | EmptyString => None
    | String c r =>
      if Ascii.eqb c "{" then
        match skip_ws r with
        | EmptyString => None
        | String c' r' =>
          if Ascii.eqb c' "}" then Some (JObj [], r') else parse_members f r []
        end
      else if Ascii.eqb c "[" then
        match skip_ws r with
        | EmptyString => None
        | String c' r' =>
          if Ascii.eqb c' "]" then Some (JArr [], r') else parse_elements f r []
        end
      else if Ascii.eqb c dquote then
        '(t, r') ← parse_string_body r; Some (JStr t, r')
      else parse_literal (String c r)
    end
  end
with parse_elements (fuel : nat) (s : string) (acc : list json) : option (json * string) :=
  match fuel with
  | O => None
  | S f =>
    '(v, r) ← parse_value f s;
    match skip_ws r with
    | EmptyString => None
    | String c r' =>
      if Ascii.eqb c "," then parse_elements f r' (v :: acc)
      else if Ascii.eqb c "]" then Some (JArr (rev (v :: acc)), r')
      else None
    end
  end
with parse_members (fuel : nat) (s : string) (acc : list (string * json)) : option (json * string) :=
  match fuel with
  | O => None
  | S f =>
    match skip_ws s with
    | EmptyString => None
    | String c r =>
      if Ascii.eqb c dquote then
        '(k, r1) ← parse_string_body r;
        match skip_ws r1 with
        | EmptyString => None
        | String c1 r2 =>
          if Ascii.eqb c1 ":" then
            '(v, r3) ← parse_value f r2;
            match skip_ws r3 with
            | EmptyString => None
            | String c3 r4 =>
              if Ascii.eqb c3 "," then parse_members f r4 ((k, v) :: acc)
              else if Ascii.eqb c3 "}" then Some (JObj (rev ((k, v) :: acc)), r4)
              else None
            end
          else None
        end
      else None
    end
  end.

(** [JSON.parse(text)]; [None] stands for the [SyntaxError] it throws.  Every
    step of the descent that does not consume a character is followed by one
    that does, so twice the length of the text is fuel enough. *)
Definition parse (text : string) : option json :=
  '(v, r) ← parse_value (2 * String.length text + 2) text;
  match skip_ws r with
  | EmptyString => Some v
  | _ => None
  end.

End Json.

(** ** The plugin cache (consumed contract) *)

Module Cache.
Import Js.

(** Modelled from the spec: the [TTL] table of the plugin-cache package is
    not among the sources; the three tiers are the 5 minutes, 15 minutes and
    1 hour of the spec, in milliseconds. *)
Definition FIVE_MINUTES : N := 300000.

(** Modelled from the spec: [TTL.FIFTEEN_MINUTES] of the absent table. *)
Definition FIFTEEN_MINUTES : N := 900000.

(** Modelled from the spec: [TTL.HOUR] of the absent table. *)
Definition HOUR : N := 3600000.

Section Store.
Context {V : Type}.

(** Modelled from the spec: a cache entry of the plugin-cache package (its
    class [PluginCache] is not among the sources): a memoized value, the time
    it was stored and its time to live. *)
Record entry := Entry { value : V; createdAt : N; ttl : N }.

(** Modelled from the spec: the state of the absent [PluginCache]: a
    key-value store and the enable/disable toggle. *)
Record cache_state := CacheState { store : gmap string entry; enabled : bool }.

Definition empty_cache : cache_state := CacheState ∅ true.

(** Modelled from the spec: an entry is fresh while [now < createdAt + ttl]. *)
Definition fresh (now : N) (e : entry) : bool :=
  N.ltb now (createdAt e + ttl e).

(** Modelled from the spec: the read of the absent [PluginCache]: the value
    of a fresh entry; a stale entry is not returned. *)
Definition lookup_fresh (now : N) (key : string) (c : cache_state) : option V :=
  match store c !! key with
  | Some e => if fresh now e then Some (value e) else None
  | None => None
  end.

(** Modelled from the spec: the store of the absent [PluginCache]: the
    result is stored with the given TTL. *)
Definition put (now : N) (key : string) (v : V) (t : N) (c : cache_state) : cache_state :=
  CacheState (<[key := Entry v now t]> (store c)) (enabled c).

(** Modelled from the spec: [invalidate(key)] of the absent [PluginCache]
    removes one entry (and tells whether there was one). *)
Definition invalidate (key : string) (c : cache_state) : bool * cache_state :=
  (bool_decide (is_Some (store c !! key)),
   CacheState (delete key (store c)) (enabled c)).

(** The regular expressions the client passes are all of the form
    [/^literal/], the literal made of letters and underscores. *)
Inductive pattern := StartsWith (literal : string).

Definition test (p : pattern) (key : string) : bool :=
  match p with
  | StartsWith literal => startsWith key literal
  end.

(** Modelled from the spec: [invalidatePattern(regex)] of the absent
    [PluginCache] removes every entry whose key matches. *)
Definition invalidatePattern (p : pattern) (c : cache_state) : cache_state :=
  CacheState (filter (λ kv : string * entry, test p kv.1 = false) (store c)) (enabled c).

(** Modelled from the spec: [clear()] of the absent [PluginCache] removes
    everything and returns the removed count. *)
Definition clear (c : cache_state) : nat * cache_state :=
  (size (store c), CacheState ∅ (enabled c)).

(** Modelled from the spec: [disable()] and [enable()] of the absent
    [PluginCache], the global toggle. *)
Definition disable (c : cache_state) : cache_state := CacheState (store c) false.

Definition enable (c : cache_state) : cache_state := CacheState (store c) true.

End Store.

Arguments entry : clear implicits.
Arguments cache_state : clear implicits.

(** *** Cache keys *)

Definition defined (kv : string * jsval) : bool :=
  match kv.2 with
  | VUndef => false
  | _ => true
  end.

Definition key_le (p q : string * jsval) : Prop := String.le p.1 q.1.

Global Instance key_le_dec : RelDecision key_le :=
  λ p q, decide (String.le p.1 q.1).

(** Modelled from the spec: the normalized argument object of
    [createCacheKey] (plugin-cache, not among the sources): undefined fields
    omitted, the others in a stable (sorted) key order. *)
Definition normalize (params : obj) : obj :=
  merge_sort key_le (List.filter defined params).

(** Modelled from the spec: a rendering of the normalized object for the
    absent [createCacheKey]; any rendering that tells different normalized
    objects apart serves. *)
Definition render_value (v : jsval) : string :=
  match v with
  | VUndef => "undefined"
  | VNum n => pretty n
  | VStr s => Json.quoted s
  end.

Fixpoint render (o : obj) : string :=
  match o with
  | [] => EmptyString
  | [(k, v)] => k +:+ "=" +:+ render_value v
  | (k, v) :: r => k +:+ "=" +:+ render_value v +:+ "&" +:+ render r
  end.

(** Modelled from the spec: [createCacheKey(operation, params)] of the absent
    plugin-cache package: the operation name followed by a rendering of the
    normalized argument object.  The rendering itself is a stand-in; what the
    spec fixes is that the key is derived from the operation name and the
    normalized object. *)
Definition createCacheKey (operation : string) (params : obj) : string :=
  operation +:+ ":" +:+ render (normalize params).

End Cache.

(** ** Tool responses *)

Module Mcp.
Import Js.

(** One item of a response's content list: [{ type, text? }]. *)
Record content_item := ContentItem { c_type : string; c_text : option string }.

(** The response envelope [{ isError, content }]. *)
Record tool_response := ToolResponse { isError : bool; content : list content_item }.

(** What [callTool] hands back: the parsed JSON value, the raw text, or the
    raw content list. *)
Inductive tool_value :=
| Parsed (v : Json.json)
| RawText (text : string)
| RawContent (items : list content_item).

(** [content.find(c => c.type === "text")] *)
Definition find_text (items : list content_item) : option content_item :=
  List.find (λ c, String.eqb (c_type c) "text") items.

(** [content.find(c => c.type === "text")?.text || fallback] *)
Definition text_or (items : list content_item) (fallback : string) : string :=
  match find_text items with
  | Some c =>
    match c_text c with
    | Some t => if String.eqb t "" then fallback else t
    | None => fallback
    end
  | None => fallback
  end.

(** The text of the first content item of type [text], when it has one. *)
Definition first_text (items : list content_item) : option string :=
  c ← find_text items; c_text c.

End Mcp.

(** ** The client: tool-call façade and domain methods *)

Module Client.
Import Js Mcp Cache.
Export Auth.

(** The message of the error [callTool] throws for an authentication
    failure. *)
Definition auth_required_message (errorText : string) : string :=
  "AUTHENTICATION_REQUIRED: " +:+ errorText +:+
  " Do NOT retry this operation." +:+
  " Ask the user to re-authenticate their personal Outlook account (YOUR_PERSONAL_EMAIL)" +:+
  " by running the login command in a terminal with browser access.".

(** The outcome of an [async] method: a value, or a thrown [Error] with its
    message. *)
Inductive result (A : Type) :=
| Ok (a : A)
| Throw (message : string).
Arguments Ok {A} a.
Arguments Throw {A} message.

(** What one [callTool] invocation meets: [await this.connect()] rejects,
    the request itself rejects (transport closed, timeout), or the server
    answers; each takes some time. *)
Inductive exchange :=
| ConnectRejects (elapsed : N) (message : string)
| RequestRejects (elapsed : N) (message : string)
| Responds (elapsed : N) (r : tool_response).

(** The state the façade methods share: the clock, the module-level cache,
    the instance's [cacheDisabled] flag, and the [callTool] invocations made
    so far (tool name and argument object, oldest first). *)
Record world := World {
  now : N;
  cache : cache_state tool_value;
  cacheDisabled : bool;
  calls : list (string * obj)
}.

Definition with_cache (f : cache_state tool_value → cache_state tool_value) (w : world) : world :=
  World (now w) (f (cache w)) (cacheDisabled w) (calls w).

Definition advance (d : N) (w : world) : world :=
  World (now w + d) (cache w) (cacheDisabled w) (calls w).

Definition record_call (name : string) (args : obj) (w : world) : world :=
  World (now w) (cache w) (cacheDisabled w) (calls w ++ [(name, args)]).

Definition M (A : Type) : Type := world → result A * world.

Global Instance M_ret : MRet M := λ A a w, (Ok a, w).

Global Instance M_bind : MBind M := λ A B k m w,
  match m w with
  | (Ok a, w') => k a w'
  | (Throw e, w') => (Throw e, w')
  end.

Section Facade.

(** [JSON.parse], and the behaviour of the session and the server as a
    function of the invocations made before and of the request. *)
Variable JSON_parse : string → option Json.json.
Variable server : list (string * obj) → string → obj → exchange.

(** The body of [callTool] after [await this.connect()] and the round trip:
    the classification of the response. *)
Definition classify (r : tool_response) : result tool_value :=
  if isError r then
    let errorText := text_or (content r) "Tool call failed" in
    if isAuthError errorText then Throw (auth_required_message errorText)
    else Throw errorText
  else
    match find_text (content r) with
    | Some c =>
      match c_text c with
      | Some t =>
        if String.eqb t "" then Ok (RawContent (content r))
        else
          match JSON_parse t with
          | Some v => Ok (Parsed v)
          | None => Ok (RawText t)
          end
      | None => Ok (RawContent (content r))
      end
    | None => Ok (RawContent (content r))
    end.

Definition callTool (name : string) (args : obj) : M tool_value := λ w,
  let w1 := record_call name args w in
  match server (calls w) name args with
  | ConnectRejects d message => (Throw message, advance d w1)
  | RequestRejects d message => (Throw message, advance d w1)
  | Responds d r => (classify r, advance d w1)
  end.

(** Modelled from the spec: [getOrFetch(key, producer, {ttl, bypassCache})]
    of the absent [PluginCache]: with [bypassCache] set or caching disabled
    it always invokes the producer and does not store; otherwise it returns
    the fresh cached value if present, and on a miss or expiry invokes the
    producer once, stores the result with the given TTL and returns it. *)
Definition getOrFetch (key : string) (producer : M tool_value)
    (t : N) (bypassCache : bool) : M tool_value := λ w,
  if bypassCache || negb (enabled (cache w)) then producer w
  else
    match lookup_fresh (now w) key (cache w) with
    | Some v => (Ok v, w)
    | None =>
      match producer w with
      | (Ok v, w') => (Ok v, with_cache (put (now w') key v t) w')
      | (Throw e, w') => (Throw e, w')
      end
    end.

Definition cache_invalidatePattern (p : pattern) : M unit := λ w,
  (Ok (), with_cache (invalidatePattern p) w).

Definition cache_invalidate (key : string) : M bool := λ w,
  (Ok (invalidate key (cache w)).1, with_cache (λ c, (invalidate key c).2) w).

(** [this.cacheDisabled], read when the options of [getOrFetch] are built. *)
Definition read_cacheDisabled : M bool := λ w, (Ok (cacheDisabled w), w).

Definition disableCache : M unit := λ w,
  (Ok (), World (now w) (disable (cache w)) true (calls w)).

Definition enableCache : M unit := λ w,
  (Ok (), World (now w) (enable (cache w)) false (calls w)).

(** *** Mail *)

Definition listMailMessages_args (options : option obj) : obj :=
  let args := [] in
  let args := set_if_truthy args "top" (opt_get options "top") in
  let args := set_if_truthy args "skip" (opt_get options "skip") in
  let args := set_if_truthy args "filter" (opt_get options "filter") in
  let args := set_if_truthy args "orderBy" (opt_get options "orderBy") in
  args.

Definition listMailMessages (options : option obj) : M tool_value :=
  let cacheKey := createCacheKey "mail_messages" (or_empty options) in
  bypass ← read_cacheDisabled;
  getOrFetch cacheKey
    (callTool "list-mail-messages" (listMailMessages_args options))
    FIVE_MINUTES bypass.

Definition listMailFolders : M tool_value :=
  bypass ← read_cacheDisabled;
  getOrFetch "mail_folders" (callTool "list-mail-folders" []) HOUR bypass.

Definition listMailFolderMessages_args (folderId : string) (options : option obj) : obj :=
  let args := [("mailFolderId", VStr folderId)] in
  let args := set_if_truthy args "top" (opt_get options "top") in
  let args := set_if_truthy args "skip" (opt_get options "skip") in
  args.

Definition listMailFolderMessages (folderId : string) (options : option obj) : M tool_value :=
  let cacheKey :=
    createCacheKey "folder_messages" (spread [("folderId", VStr folderId)] (or_empty options)) in
  bypass ← read_cacheDisabled;
  getOrFetch cacheKey
    (callTool "list-mail-folder-messages" (listMailFolderMessages_args folderId options))
    FIVE_MINUTES bypass.

Definition getMailMessage (messageId : string) : M tool_value :=
  let cacheKey := createCacheKey "mail_message" [("id", VStr messageId)] in
  bypass ← read_cacheDisabled;
  getOrFetch cacheKey
    (callTool "get-mail-message" [("messageId", VStr messageId)])
    FIFTEEN_MINUTES bypass.

Definition sendMail_args (to subject body : string) (options : option obj) : obj :=
  let args := [("to", VStr to); ("subject", VStr subject); ("body", VStr body)] in
  let args := set_if_truthy args "cc" (opt_get options "cc") in
  let args := set_if_truthy args "bodyType" (opt_get options "bodyType") in
  args.

Definition sendMail (to subject body : string) (options : option obj) : M tool_value :=
  result ← callTool "send-mail" (sendMail_args to subject body options);
  _ ← cache_invalidatePattern (StartsWith "mail_messages");
  mret result.

Definition createDraftEmail_args (to subject body : string) (options : option obj) : obj :=
  let args := [("to", VStr to); ("subject", VStr subject); ("body", VStr body)] in
  let args := set_if_truthy args "cc" (opt_get options "cc") in
  args.


Definition moveMailMessage (messageId destinationFolderId : string) : M tool_value :=
  result ← callTool "move-mail-message"
    [("messageId", VStr messageId); ("destinationFolderId", VStr destinationFolderId)];
  _ ← cache_invalidatePattern (StartsWith "mail_messages");
  _ ← cache_invalidatePattern (StartsWith "folder_messages");
  _ ← cache_invalidate (createCacheKey "mail_message" [("id", VStr messageId)]);
  mret result.

Definition deleteMailMessage (messageId : string) : M tool_value :=
  result ← callTool "delete-mail-message" [("messageId", VStr messageId)];
  _ ← cache_invalidatePattern (StartsWith "mail_messages");
  _ ← cache_invalidatePattern (StartsWith "folder_messages");
  _ ← cache_invalidate (createCacheKey "mail_message" [("id", VStr messageId)]);
  mret result.

(** *** Calendar *)

Definition listCalendars : M tool_value :=
  bypass ← read_cacheDisabled;
  getOrFetch "calendars" (callTool "list-calendars" []) HOUR bypass.

Definition listCalendarEvents_args (options : option obj) : obj :=
  let args := [] in
  let args := set_if_truthy args "calendarId" (opt_get options "calendarId") in
  let args := set_if_truthy args "top" (opt_get options "top") in
  args.

Definition listCalendarEvents (options : option obj) : M tool_value :=
  let cacheKey := createCacheKey "calendar_events" (or_empty options) in
  bypass ← read_cacheDisabled;
  getOrFetch cacheKey
    (callTool "list-calendar-events" (listCalendarEvents_args options))
    FIFTEEN_MINUTES bypass.

Definition getCalendarEvent_args (eventId : string) (calendarId : jsval) : obj :=
  let args := [("eventId", VStr eventId)] in
  let args := set_if_truthy args "calendarId" calendarId in
  args.

Definition getCalendarEvent (eventId : string) (calendarId : jsval) : M tool_value :=
  let cacheKey :=
    createCacheKey "calendar_event" [("id", VStr eventId); ("calendarId", calendarId)] in
  bypass ← read_cacheDisabled;
  getOrFetch cacheKey
    (callTool "get-calendar-event" (getCalendarEvent_args eventId calendarId))
    FIFTEEN_MINUTES bypass.

Definition getCalendarView_args (startDateTime endDateTime : string) (calendarId : jsval) : obj :=
  let args := [("startDateTime", VStr startDateTime); ("endDateTime", VStr endDateTime)] in
  let args := set_if_truthy args "calendarId" calendarId in
  args.

Definition getCalendarView (startDateTime endDateTime : string) (calendarId : jsval) : M tool_value :=
  let cacheKey :=
    createCacheKey "calendar_view"
      [("start", VStr startDateTime); ("end", VStr endDateTime); ("calendarId", calendarId)] in
  bypass ← read_cacheDisabled;
  getOrFetch cacheKey
    (callTool "get-calendar-view" (getCalendarView_args startDateTime endDateTime calendarId))
    FIFTEEN_MINUTES bypass.

Definition createCalendarEvent_args (subject start end_ : string) (options : option obj) : obj :=
  let args := [("subject", VStr subject); ("start", VStr start); ("end", VStr end_)] in
  let args := set_if_truthy args "body" (opt_get options "body") in
  let args := set_if_truthy args "location" (opt_get options "location") in
  let args := set_if_truthy args "attendees" (opt_get options "attendees") in
  let args := set_if_truthy args "calendarId" (opt_get options "calendarId") in
  args.

Definition createCalendarEvent (subject start end_ : string) (options : option obj) : M tool_value :=
  result ← callTool "create-calendar-event" (createCalendarEvent_args subject start end_ options);
  _ ← cache_invalidatePattern (StartsWith "calendar_events");
  _ ← cache_invalidatePattern (StartsWith "calendar_view");
  mret result.

(** [{ eventId, ...options }] *)
Definition updateCalendarEvent_args (eventId : string) (options : obj) : obj :=
  spread [("eventId", VStr eventId)] options.

Definition updateCalendarEvent (eventId : string) (options : obj) : M tool_value :=
  result ← callTool "update-calendar-event" (updateCalendarEvent_args eventId options);
  _ ← cache_invalidatePattern (StartsWith "calendar_events");
  _ ← cache_invalidatePattern (StartsWith "calendar_view");
  _ ← cache_invalidate
        (createCacheKey "calendar_event"
           [("id", VStr eventId); ("calendarId", get options "calendarId")]);
  mret result.

Definition deleteCalendarEvent_args (eventId : string) (calendarId : jsval) : obj :=
  let args := [("eventId", VStr eventId)] in
  let args := set_if_truthy args "calendarId" calendarId in
  args.

Definition deleteCalendarEvent (eventId : string) (calendarId : jsval) : M tool_value :=
  result ← callTool "delete-calendar-event" (deleteCalendarEvent_args eventId calendarId);
  _ ← cache_invalidatePattern (StartsWith "calendar_events");
  _ ← cache_invalidatePattern (StartsWith "calendar_view");
  _ ← cache_invalidate
        (createCacheKey "calendar_event" [("id", VStr eventId); ("calendarId", calendarId)]);
  mret result.

(** *** Contacts, tasks, search *)

Definition listContacts_args (options : option obj) : obj :=
  let args := [] in
  let args := set_if_truthy args "top" (opt_get options "top") in
  let args := set_if_truthy args "skip" (opt_get options "skip") in
  args.

Definition listContacts (options : option obj) : M tool_value :=
  let cacheKey := createCacheKey "contacts" (or_empty options) in
  bypass ← read_cacheDisabled;
  getOrFetch cacheKey
    (callTool "list-outlook-contacts" (listContacts_args options))
    FIFTEEN_MINUTES bypass.

Definition listTasks_args (options : option obj) : obj :=
  let args := [] in
  let args := set_if_truthy args "listId" (opt_get options "listId") in
  let args := set_if_truthy args "top" (opt_get options "top") in
  args.

Definition listTasks (options : option obj) : M tool_value :=
  let cacheKey := createCacheKey "tasks" (or_empty options) in
  bypass ← read_cacheDisabled;
  getOrFetch cacheKey
    (callTool "list-tasks" (listTasks_args options))
    FIVE_MINUTES bypass.

Definition search_args (query : string) (entityTypes : jsval) : obj :=
  let args := [("query", VStr query)] in
  let args := set_if_truthy args "entityTypes" entityTypes in
  args.

Definition search (query : string) (entityTypes : jsval) : M tool_value :=
  let cacheKey :=
    createCacheKey "search" [("query", VStr query); ("entityTypes", entityTypes)] in
  bypass ← read_cacheDisabled;
  getOrFetch cacheKey
    (callTool "search" (search_args query entityTypes))
    FIVE_MINUTES bypass.

(** *** The read and write operations as requests *)

Inductive read_call :=
| ListMailMessages (options : option obj)
| ListMailFolders
| ListMailFolderMessages (folderId : string) (options : option obj)
| GetMailMessage (messageId : string)
| ListCalendars
| ListCalendarEvents (options : option obj)
| GetCalendarEvent (eventId : string) (calendarId : jsval)
| GetCalendarView (startDateTime endDateTime : string) (calendarId : jsval)
| ListContacts (options : option obj)
| ListTasks (options : option obj)
| Search (query : string) (entityTypes : jsval).

Definition run_read (r : read_call) : M tool_value :=
  match r with
  | ListMailMessages options => listMailMessages options
  | ListMailFolders => listMailFolders
  | ListMailFolderMessages folderId options => listMailFolderMessages folderId options
  | GetMailMessage messageId => getMailMessage messageId
  | ListCalendars => listCalendars
  | ListCalendarEvents options => listCalendarEvents options
  | GetCalendarEvent eventId calendarId => getCalendarEvent eventId calendarId
  | GetCalendarView startDateTime endDateTime calendarId =>
    getCalendarView startDateTime endDateTime calendarId
  | ListContacts options => listContacts options
  | ListTasks options => listTasks options
  | Search query entityTypes => search query entityTypes
  end.

Inductive write_call :=
| SendMail (to subject body : string) (options : option obj)
| MoveMailMessage (messageId destinationFolderId : string)
| DeleteMailMessage (messageId : string)
| CreateCalendarEvent (subject start end_ : string) (options : option obj)
| UpdateCalendarEvent (eventId : string) (options : obj)
| DeleteCalendarEvent (eventId : string) (calendarId : jsval).

Definition run_write (c : write_call) : M tool_value :=
  match c with
  | SendMail to subject body options => sendMail to subject body options
  | MoveMailMessage messageId destinationFolderId =>
    moveMailMessage messageId destinationFolderId
  | DeleteMailMessage messageId => deleteMailMessage messageId
  | CreateCalendarEvent subject start end_ options =>
    createCalendarEvent subject start end_ options
  | UpdateCalendarEvent eventId options => updateCalendarEvent eventId options
  | DeleteCalendarEvent eventId calendarId => deleteCalendarEvent eventId calendarId
  end.

End Facade.

End Client.

(** ** The command surface *)

Module Cli.
Import Js Client.

(** The handlers of [cli.ts] pass every flag of their command on, set or
    [undefined]; these are the requests the handlers used below make. *)
Definition list_messages (top skip filter orderBy : jsval) : read_call :=
  ListMailMessages
    (Some [("top", top); ("skip", skip); ("filter", filter); ("orderBy", orderBy)]).

Definition get_event (id : string) (calendarId : jsval) : read_call :=
  GetCalendarEvent id calendarId.

Definition update_event (id : string) (subject start end_ body location calendarId : jsval) : write_call :=
  UpdateCalendarEvent id
    [("subject", subject); ("start", start); ("end", end_); ("body", body);
     ("location", location); ("calendarId", calendarId)].

Definition delete_event (id : string) (calendarId : jsval) : write_call :=
  DeleteCalendarEvent id calendarId.

End Cli.

(** ** The session guard *)

Module Session.
Import Js Mcp.

(** The message of the error [checkAuth] throws. *)
Definition auth_check_message : string :=
  "AUTHENTICATION_REQUIRED: Outlook OAuth token is expired or missing. " +:+
  "Do NOT retry this operation. " +:+
  "Ask the user to re-authenticate their personal Outlook account (YOUR_PERSONAL_EMAIL) " +:+
  "by running the login command in a terminal with browser access.".

(** One run of [doConnect]: suspended at [await this.client.connect], suspended
    in [checkAuth] at the [verify-login] call, or settled.  The promise
    [connect] stores for a run settles as the run does. *)
Inductive attempt :=
| AwaitingTransport
| AwaitingAuth
| Fulfilled
| Rejected (message : string).


(** The fields of the client instance the guard reads and writes, and what an
    observer counts: the runs of [doConnect] started so far (a run is named by
    its index), the [verify-login] status checks issued, and for each
    [connect()] invocation, in call order, the run whose promise it was
    handed. *)
Record session := Sess {
  has_client : bool;
  connected : bool;
  connectPromise : option nat;
  skipAuthCheck : bool;
  attempts : list attempt;
  statusChecks : nat;
  callers : list nat
}.

Definition initial : session := Sess false false None false [] 0 [].

(** What can happen in one turn of the event loop. *)
Inductive event :=
| CallConnect
| SetSkipAuthCheck (b : bool)
| TransportConnected (a : nat)
| TransportFailed (a : nat) (message : string)
| AuthReplied (a : nat) (items : list content_item)
| AuthCallFailed (a : nat) (message : string)
| CallDisconnect.

Section Guard.

Variable JSON_parse : string → option Json.json.

(** The verdict of [checkAuth] on the content of the [verify-login]
    response. *)
Definition authenticated (items : list content_item) : bool :=
  let text := text_or items "" in
  match JSON_parse text with
  | Some parsed =>
    Json.is_true (Json.prop parsed "success") ||
    Json.is_true (Json.prop parsed "authenticated") ||
    Json.is_str (Json.prop parsed "status") "authenticated"
  | None =>
    includes (toLowerCase text) "authenticated" ||
    includes (toLowerCase text) "login successful"
  end.

(** [checkAuth] once the [verify-login] call has returned: it returns, or
    throws the error whose message is given. *)
Definition checkAuth (items : list content_item) : option string :=
  if authenticated items then None else Some auth_check_message.

(** [connect()]: hand out the stored promise, or start [doConnect] and store
    its promise. *)
Definition connect (s : session) : session :=
  match connectPromise s with
  | Some p =>
    Sess (has_client s) (connected s) (connectPromise s) (skipAuthCheck s)
      (attempts s) (statusChecks s) (callers s ++ [p])
  | None =>
    let p := length (attempts s) in
    Sess true (connected s) (Some p) (skipAuthCheck s)
      (attempts s ++ [AwaitingTransport]) (statusChecks s) (callers s ++ [p])
  end.

(** Run [a] of [doConnect] settles; on a rejection the [catch] handler of
    [connect] resets [connectPromise]. *)
Definition settle (a : nat) (outcome : attempt) (s : session) : session :=
  Sess (has_client s) (connected s)
    (match outcome with Rejected _ => None | _ => connectPromise s end)
    (skipAuthCheck s) (<[a := outcome]> (attempts s)) (statusChecks s) (callers s).

(** [await this.client.connect(this.transport)] of run [a] returns. *)
Definition transport_connected (a : nat) (s : session) : session :=
  let s1 := Sess (has_client s) true (connectPromise s) (skipAuthCheck s)
              (attempts s) (statusChecks s) (callers s) in
  if skipAuthCheck s then settle a Fulfilled s1
  else
    Sess (has_client s) true (connectPromise s) (skipAuthCheck s)
      (<[a := AwaitingAuth]> (attempts s)) (S (statusChecks s)) (callers s).

(** [disconnect()], its [await this.client.close()] taken in the same turn. *)
Definition disconnect (s : session) : session :=
  if has_client s && connected s then
    Sess (has_client s) false None (skipAuthCheck s)
      (attempts s) (statusChecks s) (callers s)
  else s.

Definition step (s : session) (e : event) : session :=
  match e with
  | CallConnect => connect s
  | SetSkipAuthCheck b =>
    Sess (has_client s) (connected s) (connectPromise s) b
      (attempts s) (statusChecks s) (callers s)
  | TransportConnected a =>
    match attempts s !! a with
    | Some AwaitingTransport => transport_connected a s
    | _ => s
    end
  | TransportFailed a message =>
    match attempts s !! a with
    | Some AwaitingTransport => settle a (Rejected message) s
    | _ => s
    end
  | AuthReplied a items =>
    match attempts s !! a with
    | Some AwaitingAuth =>
      match checkAuth items with
      | None => settle a Fulfilled s
      | Some message => settle a (Rejected message) s
      end
    | _ => s
    end
  | AuthCallFailed a message =>
    match attempts s !! a with
    | Some AwaitingAuth => settle a (Rejected message) s
    | _ => s
    end
  | CallDisconnect => disconnect s
  end.

Definition run (s : session) (trace : list event) : session :=
  fold_left step trace s.


(** What the [i]-th invocation of [connect()] observes of its promise. *)
Definition observed (s : session) (i : nat) : option attempt :=
  p ← callers s !! i; attempts s !! p.


Definition is_disconnect (e : event) : bool :=
  match e with
  | CallDisconnect => true
  | _ => false
  end.



End Guard.




End Session.

(** * The façade: what each request asks of the cache and of the server *)

Module Requests.
Import Js Mcp Cache Client.

(** The cache key of a read operation. *)
Definition read_key (r : read_call) : string :=
  match r with
  | ListMailMessages options => createCacheKey "mail_messages" (or_empty options)
  | ListMailFolders => "mail_folders"
  | ListMailFolderMessages folderId options =>
    createCacheKey "folder_messages" (spread [("folderId", VStr folderId)] (or_empty options))
  | GetMailMessage messageId => createCacheKey "mail_message" [("id", VStr messageId)]
  | ListCalendars => "calendars"
  | ListCalendarEvents options => createCacheKey "calendar_events" (or_empty options)
  | GetCalendarEvent eventId calendarId =>
    createCacheKey "calendar_event" [("id", VStr eventId); ("calendarId", calendarId)]
  | GetCalendarView startDateTime endDateTime calendarId =>
    createCacheKey "calendar_view"
      [("start", VStr startDateTime); ("end", VStr endDateTime); ("calendarId", calendarId)]
  | ListContacts options => createCacheKey "contacts" (or_empty options)
  | ListTasks options => createCacheKey "tasks" (or_empty options)
  | Search query entityTypes =>
    createCacheKey "search" [("query", VStr query); ("entityTypes", entityTypes)]
  end.

(** The TTL a read operation passes to [getOrFetch]. *)
Definition read_ttl (r : read_call) : N :=
  match r with
  | ListMailMessages _ | ListMailFolderMessages _ _ | ListTasks _ | Search _ _ =>
    FIVE_MINUTES
  | GetMailMessage _ | ListCalendarEvents _ | GetCalendarEvent _ _
  | GetCalendarView _ _ _ | ListContacts _ =>
    FIFTEEN_MINUTES
  | ListMailFolders | ListCalendars => HOUR
  end.

(** The tool a read operation calls, and the argument object it sends. *)
Definition read_tool (r : read_call) : string :=
  match r with
  | ListMailMessages _ => "list-mail-messages"
  | ListMailFolders => "list-mail-folders"
  | ListMailFolderMessages _ _ => "list-mail-folder-messages"
  | GetMailMessage _ => "get-mail-message"
  | ListCalendars => "list-calendars"
  | ListCalendarEvents _ => "list-calendar-events"
  | GetCalendarEvent _ _ => "get-calendar-event"
  | GetCalendarView _ _ _ => "get-calendar-view"
  | ListContacts _ => "list-outlook-contacts"
  | ListTasks _ => "list-tasks"
  | Search _ _ => "search"
  end.

Definition read_args (r : read_call) : obj :=
  match r with
  | ListMailMessages options => listMailMessages_args options
  | ListMailFolders => []
  | ListMailFolderMessages folderId options => listMailFolderMessages_args folderId options
  | GetMailMessage messageId => [("messageId", VStr messageId)]
  | ListCalendars => []
  | ListCalendarEvents options => listCalendarEvents_args options
  | GetCalendarEvent eventId calendarId => getCalendarEvent_args eventId calendarId
  | GetCalendarView startDateTime endDateTime calendarId =>
    getCalendarView_args startDateTime endDateTime calendarId
  | ListContacts options => listContacts_args options
  | ListTasks options => listTasks_args options
  | Search query entityTypes => search_args query entityTypes
  end.

(** The operation name and the argument object a read's cache key is derived
    from; the two list operations with a fixed key have no arguments. *)
Definition read_operation (r : read_call) : string :=
  match r with
  | ListMailMessages _ => "mail_messages"
  | ListMailFolders => "mail_folders"
  | ListMailFolderMessages _ _ => "folder_messages"
  | GetMailMessage _ => "mail_message"
  | ListCalendars => "calendars"
  | ListCalendarEvents _ => "calendar_events"
  | GetCalendarEvent _ _ => "calendar_event"
  | GetCalendarView _ _ _ => "calendar_view"
  | ListContacts _ => "contacts"
  | ListTasks _ => "tasks"
  | Search _ _ => "search"
  end.

Definition read_params (r : read_call) : obj :=
  match r with
  | ListMailMessages options | ListCalendarEvents options
  | ListContacts options | ListTasks options => or_empty options
  | ListMailFolders | ListCalendars => []
  | ListMailFolderMessages folderId options =>
    spread [("folderId", VStr folderId)] (or_empty options)
  | GetMailMessage messageId => [("id", VStr messageId)]
  | GetCalendarEvent eventId calendarId =>
    [("id", VStr eventId); ("calendarId", calendarId)]
  | GetCalendarView startDateTime endDateTime calendarId =>
    [("start", VStr startDateTime); ("end", VStr endDateTime); ("calendarId", calendarId)]
  | Search query entityTypes => [("query", VStr query); ("entityTypes", entityTypes)]
  end.

(** Two reads are the same request when they are the same operation on
    argument objects with the same normalization. *)
Definition same_request (r1 r2 : read_call) : Prop :=
  read_operation r1 = read_operation r2 ∧
  normalize (read_params r1) = normalize (read_params r2).

(** The tool a write operation calls, and the argument object it sends. *)
Definition write_tool (c : write_call) : string :=
  match c with
  | SendMail _ _ _ _ => "send-mail"
  | MoveMailMessage _ _ => "move-mail-message"
  | DeleteMailMessage _ => "delete-mail-message"
  | CreateCalendarEvent _ _ _ _ => "create-calendar-event"
  | UpdateCalendarEvent _ _ => "update-calendar-event"
  | DeleteCalendarEvent _ _ => "delete-calendar-event"
  end.

Definition write_args (c : write_call) : obj :=
  match c with
  | SendMail to subject body options => sendMail_args to subject body options
  | MoveMailMessage messageId destinationFolderId =>
    [("messageId", VStr messageId); ("destinationFolderId", VStr destinationFolderId)]
  | DeleteMailMessage messageId => [("messageId", VStr messageId)]
  | CreateCalendarEvent subject start end_ options =>
    createCalendarEvent_args subject start end_ options
  | UpdateCalendarEvent eventId options => updateCalendarEvent_args eventId options
  | DeleteCalendarEvent eventId calendarId => deleteCalendarEvent_args eventId calendarId
  end.

(** [key] is an entry of the list operation [operation], whatever its
    arguments: the [operation/*] of the [@invalidates] notes. *)
Definition entry_of (operation key : string) : Prop :=
  ∃ params, key = createCacheKey operation params.

(** The entries the [@invalidates] note of each write operation names.  A
    calendar event is cached under its id and the calendar id it was read
    with; the note [calendar_event/{eventId}] names the event. *)
Definition documented (c : write_call) (key : string) : Prop :=
  match c with
  | SendMail _ _ _ _ => entry_of "mail_messages" key
  | MoveMailMessage messageId _ | DeleteMailMessage messageId =>
    entry_of "mail_messages" key ∨ entry_of "folder_messages" key ∨
    key = createCacheKey "mail_message" [("id", VStr messageId)]
  | CreateCalendarEvent _ _ _ _ =>
    entry_of "calendar_events" key ∨ entry_of "calendar_view" key
  | UpdateCalendarEvent eventId _ | DeleteCalendarEvent eventId _ =>
    entry_of "calendar_events" key ∨ entry_of "calendar_view" key ∨
    ∃ calendarId,
      key = createCacheKey "calendar_event" [("id", VStr eventId); ("calendarId", calendarId)]
  end.

(** The calendar id a write on an event was given. *)
Definition event_calendar (c : write_call) : jsval :=
  match c with
  | UpdateCalendarEvent _ options => get options "calendarId"
  | DeleteCalendarEvent _ calendarId => calendarId
  | _ => VUndef
  end.

(** The entries a write operation invalidates: as documented, the detail
    entry of an event being the one for the calendar id the write was
    given. *)
Definition invalidated (c : write_call) (key : string) : Prop :=
  match c with
  | SendMail _ _ _ _ => entry_of "mail_messages" key
  | MoveMailMessage messageId _ | DeleteMailMessage messageId =>
    entry_of "mail_messages" key ∨ entry_of "folder_messages" key ∨
    key = createCacheKey "mail_message" [("id", VStr messageId)]
  | CreateCalendarEvent _ _ _ _ =>
    entry_of "calendar_events" key ∨ entry_of "calendar_view" key
  | UpdateCalendarEvent eventId _ | DeleteCalendarEvent eventId _ =>
    entry_of "calendar_events" key ∨ entry_of "calendar_view" key ∨
    key = createCacheKey "calendar_event"
            [("id", VStr eventId); ("calendarId", event_calendar c)]
  end.

(** Every façade operation that sends an argument object. *)
Inductive facade_call :=
| ReadCall (r : read_call)
| WriteCall (c : write_call)
| CreateDraftEmail (to subject body : string) (options : option obj).

Definition tool_args (c : facade_call) : obj :=
  match c with
  | ReadCall r => read_args r
  | WriteCall c => write_args c
  | CreateDraftEmail to subject body options => createDraftEmail_args to subject body options
  end.

(** The optional parameters of an operation: the name of each and the value
    the caller gave it ([undefined] when the caller left it out). *)
Definition optional_parameters (c : facade_call) : list (string * jsval) :=
  let from options names := map (λ k, (k, opt_get options k)) names in
  match c with
  | ReadCall (ListMailMessages options) => from options ["top"; "skip"; "filter"; "orderBy"]
  | ReadCall (ListMailFolderMessages _ options) => from options ["top"; "skip"]
  | ReadCall (ListCalendarEvents options) => from options ["calendarId"; "top"]
  | ReadCall (GetCalendarEvent _ calendarId) => [("calendarId", calendarId)]
  | ReadCall (GetCalendarView _ _ calendarId) => [("calendarId", calendarId)]
  | ReadCall (ListContacts options) => from options ["top"; "skip"]
  | ReadCall (ListTasks options) => from options ["listId"; "top"]
  | ReadCall (Search _ entityTypes) => [("entityTypes", entityTypes)]
  | ReadCall _ => []
  | WriteCall (SendMail _ _ _ options) => from options ["cc"; "bodyType"]
  | WriteCall (CreateCalendarEvent _ _ _ options) =>
    from options ["body"; "location"; "attendees"; "calendarId"]
  | WriteCall (UpdateCalendarEvent _ options) =>
    from (Some options) ["subject"; "start"; "end"; "body"; "location"; "calendarId"]
  | WriteCall (DeleteCalendarEvent _ calendarId) => [("calendarId", calendarId)]
  | WriteCall _ => []
  | CreateDraftEmail _ _ _ options => from options ["cc"]
  end.

Definition is_update (c : facade_call) : bool :=
  match c with
  | WriteCall (UpdateCalendarEvent _ _) => true
  | _ => false
  end.

(** The list-style reads: message lists, event lists, contact lists, task
    lists and search. *)
Definition list_style (r : read_call) : bool :=
  match r with
  | ListMailMessages _ | ListMailFolderMessages _ _ | ListCalendarEvents _
  | ListContacts _ | ListTasks _ | Search _ _ => true
  | _ => false
  end.

(** The invalidations a write operation performs once its tool call has
    returned, in source order. *)
Definition invalidations (c : write_call) (s : cache_state tool_value) : cache_state tool_value :=
  match c with
  | SendMail _ _ _ _ => invalidatePattern (StartsWith "mail_messages") s
  | MoveMailMessage messageId _ | DeleteMailMessage messageId =>
    (invalidate (createCacheKey "mail_message" [("id", VStr messageId)])
       (invalidatePattern (StartsWith "folder_messages")
          (invalidatePattern (StartsWith "mail_messages") s))).2
  | CreateCalendarEvent _ _ _ _ =>
    invalidatePattern (StartsWith "calendar_view")
      (invalidatePattern (StartsWith "calendar_events") s)
  | UpdateCalendarEvent eventId _ | DeleteCalendarEvent eventId _ =>
    (invalidate
       (createCacheKey "calendar_event"
          [("id", VStr eventId); ("calendarId", event_calendar c)])
       (invalidatePattern (StartsWith "calendar_view")
          (invalidatePattern (StartsWith "calendar_events") s))).2
  end.

End Requests.

(** * Concrete servers and worlds for the examples *)

Module Scenario.
Import Js Mcp Cache Client.

Definition text_item (t : string) : content_item := ContentItem "text" (Some t).

(** A server that answers every request with a plain-text confirmation. *)
Definition ok_server : list (string * obj) → string → obj → exchange :=
  λ _ name _, Responds 50 (ToolResponse false [text_item ("done " +:+ name)]).

(** A server that answers every request with an error. *)
Definition failing_server (errorText : string) : list (string * obj) → string → obj → exchange :=
  λ _ _ _, Responds 50 (ToolResponse true [text_item errorText]).

(** A fresh client: empty cache, caching on, no call made yet. *)
Definition fresh_world : world := World 1000 empty_cache false [].

(** A server that answers every request with an empty text item. *)
Definition empty_text_server : list (string * obj) → string → obj → exchange :=
  λ _ _ _, Responds 50 (ToolResponse false [text_item ""]).

(** The world after [get-event --id e1 --calendarId calA] was served and
    cached. *)
Definition event_cached : world :=
  (run_read Json.parse ok_server (Cli.get_event "e1" (VStr "calA")) fresh_world).2.

(** The world after [listMailMessages({top: 10})] was served and cached. *)
Definition inbox_cached : world :=
  (listMailMessages Json.parse ok_server (Some [("top", VNum 10)]) fresh_world).2.

(** A server whose answer is the JSON text of an object with one member. *)
Definition json_server : list (string * obj) → string → obj → exchange :=
  λ _ _ _, Responds 50 (ToolResponse false [text_item ("{" +:+ Json.quoted "count" +:+ ": 3}")]).

End Scenario.

(** ** The uncached operations and the command handlers *)

Module Operations.
Import Js Mcp Cache Client Requests.

Section Facade.

Variable JSON_parse : string → option Json.json.
Variable server : list (string * obj) → string → obj → exchange.



End Facade.

End Operations.

Module Commands.
Import Js Client Requests.

(** The commands of [cli.ts] with the flags their schemas declare: a
    required flag is a string, an optional flag a value that may be
    [undefined]. *)
Inductive command :=
| CmdListTools
| CmdLogin
| CmdVerifyLogin
| CmdListMessages (top skip filter orderBy : jsval)
| CmdListFolders
| CmdListFolderMessages (folderId : string) (top skip : jsval)
| CmdGetMessage (id : string)
| CmdSendMail (to subject body : string) (cc bodyType : jsval)
| CmdCreateDraft (to subject body : string) (cc : jsval)
| CmdMoveMessage (id folderId : string)
| CmdDeleteMessage (id : string)
| CmdListCalendars
| CmdListEvents (calendarId top : jsval)
| CmdGetEvent (id : string) (calendarId : jsval)
| CmdGetCalendarView (start end_ : string) (calendarId : jsval)
| CmdCreateEvent (subject start end_ : string) (body location attendees calendarId : jsval)
| CmdUpdateEvent (id : string) (subject start end_ body location calendarId : jsval)
| CmdDeleteEvent (id : string) (calendarId : jsval)
| CmdListContacts (top skip : jsval)
| CmdListTasks (listId top : jsval)
| CmdSearch (query : string) (entityTypes : jsval).

(** The façade operation a handler calls with the options object it builds;
    [None] for the three handlers that call [listTools], [login] and
    [verifyLogin]. *)
Definition facade (cmd : command) : option facade_call :=
  match cmd with
  | CmdListTools | CmdLogin | CmdVerifyLogin => None
  | CmdListMessages top skip filter orderBy =>
    Some (ReadCall (Cli.list_messages top skip filter orderBy))
  | CmdListFolders => Some (ReadCall ListMailFolders)
  | CmdListFolderMessages folderId top skip =>
    Some (ReadCall (ListMailFolderMessages folderId (Some [("top", top); ("skip", skip)])))
  | CmdGetMessage id => Some (ReadCall (GetMailMessage id))
  | CmdSendMail to subject body cc bodyType =>
    Some (WriteCall (SendMail to subject body (Some [("cc", cc); ("bodyType", bodyType)])))
  | CmdCreateDraft to subject body cc =>
    Some (CreateDraftEmail to subject body (Some [("cc", cc)]))
  | CmdMoveMessage id folderId => Some (WriteCall (MoveMailMessage id folderId))
  | CmdDeleteMessage id => Some (WriteCall (DeleteMailMessage id))
  | CmdListCalendars => Some (ReadCall ListCalendars)
  | CmdListEvents calendarId top =>
    Some (ReadCall (ListCalendarEvents (Some [("calendarId", calendarId); ("top", top)])))
  | CmdGetEvent id calendarId => Some (ReadCall (Cli.get_event id calendarId))
  | CmdGetCalendarView start end_ calendarId =>
    Some (ReadCall (GetCalendarView start end_ calendarId))
  | CmdCreateEvent subject start end_ body location attendees calendarId =>
    Some (WriteCall (CreateCalendarEvent subject start end_
            (Some [("body", body); ("location", location);
                   ("attendees", attendees); ("calendarId", calendarId)])))
  | CmdUpdateEvent id subject start end_ body location calendarId =>
    Some (WriteCall (Cli.update_event id subject start end_ body location calendarId))
  | CmdDeleteEvent id calendarId => Some (WriteCall (Cli.delete_event id calendarId))
  | CmdListContacts top skip =>
    Some (ReadCall (ListContacts (Some [("top", top); ("skip", skip)])))
  | CmdListTasks listId top =>
    Some (ReadCall (ListTasks (Some [("listId", listId); ("top", top)])))
  | CmdSearch query entityTypes => Some (ReadCall (Search query entityTypes))
  end.

(** The required flags of a command as the tool is to receive them: the
    name of the tool argument and the value of the flag. *)
Definition required_arguments (cmd : command) : list (string * jsval) :=
  match cmd with
  | CmdListFolderMessages folderId _ _ => [("mailFolderId", VStr folderId)]
  | CmdGetMessage id | CmdDeleteMessage id => [("messageId", VStr id)]
  | CmdSendMail to subject body _ _ | CmdCreateDraft to subject body _ =>
    [("to", VStr to); ("subject", VStr subject); ("body", VStr body)]
  | CmdMoveMessage id folderId =>
    [("messageId", VStr id); ("destinationFolderId", VStr folderId)]
  | CmdGetEvent id _ | CmdUpdateEvent id _ _ _ _ _ _ | CmdDeleteEvent id _ =>
    [("eventId", VStr id)]
  | CmdGetCalendarView start end_ _ =>
    [("startDateTime", VStr start); ("endDateTime", VStr end_)]
  | CmdCreateEvent subject start end_ _ _ _ _ =>
    [("subject", VStr subject); ("start", VStr start); ("end", VStr end_)]
  | CmdSearch query _ => [("query", VStr query)]
  | _ => []
  end.

End Commands.

(** ** Observations on session traces *)

Module Traces.
Import Session.

(** The run is past its [await this.client.connect(...)]. *)
Definition past_transport (a : attempt) : bool :=
  match a with
  | AwaitingTransport => false
  | _ => true
  end.

(** The number of runs whose transport connection has been answered. *)
Definition answered (s : session) : nat :=
  length (List.filter past_transport (attempts s)).

Definition is_transport_connected (e : event) : bool :=
  match e with
  | TransportConnected _ => true
  | _ => false
  end.

(** The event clears [skipAuthCheck]; nothing in the source does. *)
Definition clears_skip (e : event) : bool :=
  match e with
  | SetSkipAuthCheck false => true
  | _ => false
  end.

End Traces.

(** ** Well-formed requests *)

Module WellFormed.
Import Js Client.

(** The options object of [listMailFolderMessages] is typed
    [{ top?, skip? }]: its properties are distinct and none is called
    [folderId].  The other reads need no such condition. *)
Definition well_formed (r : read_call) : Prop :=
  match r with
  | ListMailFolderMessages _ options =>
    NoDup (keys (or_empty options)) ∧ "folderId" ∉ keys (or_empty options)
  | _ => True
  end.

End WellFormed.

(** ** What a write leaves alone *)

Module Isolation.
Import Js Client.

(** The read operations none of whose entries a write can remove: the
    operations whose name no invalidation pattern of the write matches and
    which are not the operation of the detail entry it invalidates.  The
    detail operations [mail_message] and [calendar_event] are listed only
    where the name already differs from every pattern in some character;
    [mail_message] against [/^mail_messages/] and [calendar_event] against
    [/^calendar_events/] depend on how a key continues after the operation
    name, and are left out. *)
Definition untouched (c : write_call) : list string :=
  match c with
  | SendMail _ _ _ _ =>
    ["mail_folders"; "folder_messages"; "calendars"; "calendar_events";
     "calendar_event"; "calendar_view"; "contacts"; "tasks"; "search"]
  | MoveMailMessage _ _ | DeleteMailMessage _ =>
    ["mail_folders"; "calendars"; "calendar_events"; "calendar_event";
     "calendar_view"; "contacts"; "tasks"; "search"]
  | CreateCalendarEvent _ _ _ _ =>
    ["mail_messages"; "mail_folders"; "folder_messages"; "mail_message";
     "calendars"; "contacts"; "tasks"; "search"]
  | UpdateCalendarEvent _ _ | DeleteCalendarEvent _ _ =>
    ["mail_messages"; "mail_folders"; "folder_messages"; "mail_message";
     "calendars"; "contacts"; "tasks"; "search"]
  end.

End Isolation.

(** * Part II: facts and claims *)

(** * Facts about the string primitives *)

Module JsFacts.
Import Js.

Lemma startsWith_app (p t : string) : startsWith (p +:+ t) p = true.
Proof. induction p as [|a p IH]; simpl; [done|]. by rewrite decide_True. Qed.

Lemma startsWith_inv (s p : string) :
  startsWith s p = true → ∃ t, s = p +:+ t.
Proof.
  revert s. induction p as [|a p IH]; intros s H.
  - by exists s.
  - destruct s as [|b s]; simpl in H; [done|].
    destruct (decide (a = b)) as [->|]; [|done].
    destruct (IH _ H) as [t ->]. by exists t.
Qed.

Lemma startsWith_spec (s p : string) :
  startsWith s p = true ↔ ∃ t, s = p +:+ t.
Proof.
  split; [apply startsWith_inv|]. intros [t ->]. apply startsWith_app.
Qed.

Lemma includes_startsWith (s sub : string) :
  startsWith s sub = true → includes s sub = true.
Proof. intros H. destruct s; simpl; by rewrite H. Qed.

Lemma includes_intro (pre sub post : string) :
  includes (pre +:+ sub +:+ post) sub = true.
Proof.
  induction pre as [|c pre IH].
  - exact (includes_startsWith _ _ (startsWith_app sub post)).
  - change (includes (String c (pre +:+ sub +:+ post)) sub = true).
    simpl. rewrite IH. apply orb_true_r.
Qed.

Lemma includes_inv (s sub : string) :
  includes s sub = true → ∃ pre post, s = pre +:+ sub +:+ post.
Proof.
  induction s as [|c s IH]; simpl; intros H.
  - rewrite orb_false_r in H. apply startsWith_inv in H as [t ->]. by exists "", t.
  - apply orb_true_iff in H as [H|H].
    + apply startsWith_inv in H as [t ->]. by exists "", t.
    + destruct (IH H) as (pre & post & ->). by exists (String c pre), post.
Qed.

Lemma includes_spec (s sub : string) :
  includes s sub = true ↔ occurs sub s.
Proof.
  split; [apply includes_inv|]. intros (pre & post & ->). apply includes_intro.
Qed.

Lemma toLowerCase_app (a b : string) :
  toLowerCase (a +:+ b) = toLowerCase a +:+ toLowerCase b.
Proof. induction a as [|c a IH]; simpl; [done|]. by rewrite IH. Qed.


End JsFacts.

Module AuthFacts.
Import Js JsFacts Auth.





Lemma isAuthError_existsb (text : string) :
  isAuthError text = existsb (includes (toLowerCase text)) auth_vocabulary.
Proof.
  unfold isAuthError, auth_vocabulary. simpl. rewrite orb_false_r.
  by rewrite !orb_assoc.
Qed.




Example isAuthError_401 : isAuthError "401 Unauthorized" = true.
Proof. reflexivity. Qed.

Example isAuthError_mixed_case :
  isAuthError "Graph said: Token EXPIRED at 10:00" = true.
Proof. reflexivity. Qed.

Example isAuthError_other : isAuthError "Folder not found" = false.
Proof. reflexivity. Qed.

End AuthFacts.

(** * Facts about objects and the cache *)

Module ObjFacts.
Import Js.

Lemma keys_set (o : obj) (k : string) (v : jsval) (k' : string) :
  k' ∈ keys (set o k v) ↔ k' = k ∨ k' ∈ keys o.
Proof.
  unfold keys. induction o as [|[k0 v0] o IH]; simpl.
  - rewrite elem_of_cons. tauto.
  - destruct (decide (k0 = k)) as [->|Hne]; simpl.
    + rewrite !elem_of_cons. tauto.
    + rewrite !elem_of_cons, IH. tauto.
Qed.

Lemma has_key_set (o : obj) (k : string) (v : jsval) (k' : string) :
  has_key (set o k v) k' = bool_decide (k' = k) || has_key o k'.
Proof.
  unfold has_key. apply eq_true_iff_eq.
  rewrite orb_true_iff, !bool_decide_eq_true. apply keys_set.
Qed.

Lemma has_key_set_if_truthy (o : obj) (k : string) (v : jsval) (k' : string) :
  has_key (set_if_truthy o k v) k' = (bool_decide (k' = k) && truthy v) || has_key o k'.
Proof.
  unfold set_if_truthy. destruct (truthy v).
  - by rewrite has_key_set, andb_true_r.
  - by rewrite andb_false_r.
Qed.

Lemma keys_spread (base src : obj) (k : string) :
  k ∈ keys (spread base src) ↔ k ∈ keys base ∨ k ∈ keys src.
Proof.
  unfold spread. revert base. induction src as [|[k0 v0] src IH]; intros base; simpl.
  - split; [tauto|]. intros [H|H]; [done|]. by apply elem_of_nil in H.
  - rewrite IH, keys_set. change (keys ((k0, v0) :: src)) with (k0 :: keys src).
    rewrite elem_of_cons. tauto.
Qed.

End ObjFacts.

Module CacheFacts.
Import Js JsFacts Cache.

Section Store.
Context {V : Type}.
Implicit Types c : cache_state V.

Lemma lookup_invalidatePattern p c k :
  store (invalidatePattern p c) !! k = if test p k then None else store c !! k.
Proof.
  unfold invalidatePattern. simpl. rewrite map_lookup_filter. simpl.
  destruct (store c !! k) as [e|] eqn:E; simpl.
  - destruct (test p k); [by rewrite option_guard_False|by rewrite option_guard_True].
  - by destruct (test p k).
Qed.

Lemma lookup_invalidate key c k :
  store (invalidate key c).2 !! k = if decide (key = k) then None else store c !! k.
Proof.
  simpl. destruct (decide (key = k)) as [->|Hne].
  - apply lookup_delete_eq.
  - by apply lookup_delete_ne.
Qed.

Lemma lookup_fresh_put now now' key v t c :
  (now' < now + t)%N → lookup_fresh now' key (put now key v t c) = Some v.
Proof.
  intros H. unfold lookup_fresh, put. simpl. rewrite lookup_insert_eq.
  unfold fresh. simpl. by apply N.ltb_lt in H as ->.
Qed.

End Store.

Lemma createCacheKey_startsWith operation params :
  startsWith (createCacheKey operation params) operation = true.
Proof. apply startsWith_app. Qed.

Global Instance key_le_trans : Transitive key_le.
Proof. intros x y z. unfold key_le. apply transitivity. Qed.

Global Instance key_le_total : Total key_le.
Proof. intros x y. unfold key_le. apply total, _. Qed.

Lemma NoDup_keys_elem (o : obj) (k : string) (v1 v2 : jsval) :
  NoDup (keys o) → (k, v1) ∈ o → (k, v2) ∈ o → v1 = v2.
Proof.
  unfold keys. induction o as [|[k0 v0] o IH]; simpl; intros Hnd H1 H2.
  - by apply elem_of_nil in H1.
  - apply NoDup_cons in Hnd as [Hnot Hnd].
    apply elem_of_cons in H1 as [H1|H1]; apply elem_of_cons in H2 as [H2|H2].
    + congruence.
    + injection H1 as -> ->. exfalso. apply Hnot.
      apply list_elem_of_In, in_map_iff. exists (k0, v2). split; [done|].
      by apply list_elem_of_In.
    + injection H2 as -> ->. exfalso. apply Hnot.
      apply list_elem_of_In, in_map_iff. exists (k0, v1). split; [done|].
      by apply list_elem_of_In.
    + by apply IH.
Qed.

Lemma filter_defined_Permutation (o1 o2 : obj) :
  o1 ≡ₚ o2 → List.filter defined o1 ≡ₚ List.filter defined o2.
Proof.
  induction 1 as [|x l l' _ IH|x y l|l l' l'' _ IH1 _ IH2]; simpl.
  - done.
  - destruct (defined x); [by constructor|done].
  - destruct (defined x), (defined y); try done. apply perm_swap.
  - by etrans.
Qed.

(** Objects with the same properties, listed in any order, normalize to the
    same object. *)
Lemma normalize_Permutation (o1 o2 : obj) :
  NoDup (keys o1) → o1 ≡ₚ o2 → normalize o1 = normalize o2.
Proof.
  intros Hnd Hperm. unfold normalize.
  apply (Sorted_unique_strong key_le).
  - intros [k1 v1] [k2 v2] H1 H2 Hle1 Hle2.
    rewrite merge_sort_Permutation in H1, H2.
    apply list_elem_of_In, filter_In in H1 as [H1 _].
    apply list_elem_of_In, filter_In in H2 as [H2 _].
    apply list_elem_of_In in H1, H2. rewrite <- Hperm in H2.
    unfold key_le in Hle1, Hle2. simpl in *.
    assert (k1 = k2) as -> by (by apply (anti_symm String.le)).
    f_equal. by eapply NoDup_keys_elem.
  - apply Sorted_merge_sort, _.
  - apply Sorted_merge_sort, _.
  - rewrite !merge_sort_Permutation. by apply filter_defined_Permutation.
Qed.

Lemma createCacheKey_Permutation operation (o1 o2 : obj) :
  NoDup (keys o1) → o1 ≡ₚ o2 →
  createCacheKey operation o1 = createCacheKey operation o2.
Proof.
  intros Hnd Hperm. unfold createCacheKey.
  by rewrite (normalize_Permutation o1 o2).
Qed.

End CacheFacts.

Module ClientFacts.
Import Js JsFacts ObjFacts Mcp Cache CacheFacts Client Requests.

Section Facade.

Variable JSON_parse : string → option Json.json.
Variable server : list (string * obj) → string → obj → exchange.

Abbreviation callTool := (callTool JSON_parse server).
Abbreviation run_read := (run_read JSON_parse server).
Abbreviation run_write := (run_write JSON_parse server).

(** [callTool] touches neither the cache nor the [cacheDisabled] flag; it
    records its invocation and lets time pass. *)
Lemma callTool_frame name args w res w' :
  callTool name args w = (res, w') →
  cache w' = cache w ∧ cacheDisabled w' = cacheDisabled w ∧
  calls w' = (calls w ++ [(name, args)])%list.
Proof.
  unfold Client.callTool. destruct (server _ _ _); intros [= _ <-]; done.
Qed.

(** Every read method is [getOrFetch] on its key, its producer and its
    TTL. *)
Lemma run_read_eq r w :
  run_read r w =
  getOrFetch (read_key r) (callTool (read_tool r) (read_args r)) (read_ttl r)
    (cacheDisabled w) w.
Proof. destruct r; reflexivity. Qed.

(** Every write method is its tool call followed, on success, by its
    invalidations. *)
Lemma run_write_eq c w :
  run_write c w =
  match callTool (write_tool c) (write_args c) w with
  | (Ok v, w') => (Ok v, with_cache (invalidations c) w')
  | (Throw e, w') => (Throw e, w')
  end.
Proof.
  destruct c; simpl;
    unfold sendMail, moveMailMessage, deleteMailMessage, createCalendarEvent,
      updateCalendarEvent, deleteCalendarEvent, mbind, M_bind;
    match goal with |- context [callTool ?n ?a w] => destruct (callTool n a w) as [[v|e] w'] end;
    reflexivity.
Qed.

Lemma invalidated_gone c s key :
  invalidated c key → store (invalidations c s) !! key = None.
Proof.
  assert (Hpre : ∀ operation, entry_of operation key → startsWith key operation = true).
  { intros operation [params ->]. apply createCacheKey_startsWith. }
  destruct c; unfold invalidations, invalidated; cbv beta iota; intros H;
    rewrite ?lookup_invalidate, ?lookup_invalidatePattern; unfold test;
    repeat match goal with
    | H : _ ∨ _ |- _ => destruct H as [H|H]
    | H : entry_of _ _ |- _ => apply Hpre in H; rewrite H
    | |- context [decide ?P] => destruct (decide P)
    | |- context [startsWith ?k ?p] => destruct (startsWith k p)
    end; congruence.
Qed.

(** A successful first read on a miss stores the value under the read's key
    with the read's TTL, after exactly one tool call. *)
Lemma read_miss_stores r w v w' :
  cacheDisabled w = false → enabled (cache w) = true →
  lookup_fresh (now w) (read_key r) (cache w) = None →
  run_read r w = (Ok v, w') →
  cache w' = put (now w') (read_key r) v (read_ttl r) (cache w) ∧
  cacheDisabled w' = false ∧
  calls w' = (calls w ++ [(read_tool r, read_args r)])%list.
Proof.
  intros Hflag Hon Hmiss. rewrite run_read_eq. unfold getOrFetch.
  rewrite Hflag, Hon, Hmiss. simpl.
  destruct (callTool _ _ w) as [[v1|e] w1] eqn:Hcall; intros [= <- <-].
  apply callTool_frame in Hcall as (Hc & Hd & Hl). simpl.
  by rewrite Hc, Hd, Hl, Hflag.
Qed.

Lemma same_request_key r1 r2 : same_request r1 r2 → read_key r1 = read_key r2.
Proof.
  intros [Hop Hparams].
  destruct r1, r2; try discriminate Hop; try reflexivity;
    unfold read_key, createCacheKey; simpl in Hparams; by rewrite Hparams.
Qed.

Lemma same_request_refl r : same_request r r.
Proof. by split. Qed.

(** The tool arguments hold an optional parameter exactly when the value
    given for it is truthy. *)
Lemma guarded_parameter c k v :
  is_update c = false → In (k, v) (optional_parameters c) →
  has_key (tool_args c) k = truthy v.
Proof.
  intros Hup Hin.
  destruct c as [r|c|to subject body options]; [destruct r|destruct c|];
    try discriminate Hup; simpl in Hin;
    repeat (destruct Hin as [[= <- <-]|Hin]); try contradiction;
    unfold tool_args, read_args, write_args, listMailMessages_args,
      listMailFolderMessages_args, listCalendarEvents_args, getCalendarEvent_args,
      getCalendarView_args, listContacts_args, listTasks_args, search_args,
      sendMail_args, createCalendarEvent_args, deleteCalendarEvent_args,
      createDraftEmail_args;
    cbv zeta; rewrite !has_key_set_if_truthy;
    repeat match goal with
    | |- context [truthy ?x] => lazymatch x with VUndef => fail | _ => destruct (truthy x) end
    end; reflexivity.
Qed.

End Facade.

End ClientFacts.

(** * The cache claims *)

Module CacheClaims.
Import Js JsFacts ObjFacts Mcp Cache CacheFacts Client Requests ClientFacts Scenario.

(** C10.  A write operation invalidates only after its tool call returned:
    when the call throws, whether a generic or an authentication error, the
    operation throws and leaves the cache exactly as it was. *)
Theorem write_failure_keeps_cache JSON_parse server c w e w' :
  run_write JSON_parse server c w = (Throw e, w') → cache w' = cache w.
Proof.
  rewrite run_write_eq.
  destruct (callTool _ _ _ _ w) as [[v|e1] w1] eqn:Hcall; intros [= <- <-].
  by apply callTool_frame in Hcall as (Hc & _).
Qed.

(** [send-mail] answered with [401 Unauthorized] leaves the cached inbox
    list in place. *)
Lemma write_failure_keeps_cache_witness :
  let c := SendMail "a@b.com" "hi" "body" None in
  let out := run_write Json.parse (failing_server "401 Unauthorized") c inbox_cached in
  out.1 = Throw (auth_required_message "401 Unauthorized") ∧
  cache out.2 = cache inbox_cached.
Proof.
  intros c out. split; [reflexivity|].
  apply (write_failure_keeps_cache Json.parse (failing_server "401 Unauthorized") c
           inbox_cached (auth_required_message "401 Unauthorized")).
  reflexivity.
Defined.

(** What a successful write does remove: sending mail removes every
    mail-list entry; moving or deleting a message removes every mail-list
    entry, every folder-listing entry and the detail entry of that message;
    creating an event removes every event-list and calendar-view entry;
    updating or deleting an event removes these and the detail entry of the
    event for the calendar id the write was given. *)
Lemma write_success_invalidates JSON_parse server c w v w' key :
  run_write JSON_parse server c w = (Ok v, w') →
  invalidated c key →
  store (cache w') !! key = None.
Proof.
  rewrite run_write_eq.
  destruct (callTool _ _ _ _ w) as [[v1|e1] w1] eqn:Hcall; intros [= <- <-] Hinv.
  simpl. by apply invalidated_gone.
Qed.

(** A successful [move-message] removes the cached inbox list. *)
Example move_message_invalidates_inbox :
  let c := MoveMailMessage "m1" "archive" in
  let key := createCacheKey "mail_messages" [("top", VNum 10)] in
  is_Some (store (cache inbox_cached) !! key) ∧
  store (cache (run_write Json.parse ok_server c inbox_cached).2) !! key = None.
Proof.
  intros c key. split; [by vm_compute; eexists|].
  apply (write_success_invalidates Json.parse ok_server c inbox_cached
           (RawText "done move-mail-message")).
  - reflexivity.
  - left. by exists [("top", VNum 10)].
Qed.

(** C2, at the failing input.  [get-event --id e1 --calendarId calA] was
    served and cached; [update-event --id e1 --subject Moved] succeeds.  The
    cached detail entry of [e1] is one the [@invalidates] note of
    [updateCalendarEvent] names; it is still in the cache, and the next
    [get-event --id e1 --calendarId calA] is answered from it without a
    call. *)
Lemma update_event_keeps_detail_entry :
  let read := Cli.get_event "e1" (VStr "calA") in
  let write := Cli.update_event "e1" (VStr "Moved") VUndef VUndef VUndef VUndef VUndef in
  let out := run_write Json.parse ok_server write event_cached in
  out.1 = Ok (RawText "done update-calendar-event") ∧
  documented write (read_key read) ∧
  is_Some (store (cache out.2) !! read_key read) ∧
  run_read Json.parse ok_server read out.2 = (Ok (RawText "done get-calendar-event"), out.2).
Proof.
  intros read write out. split; [reflexivity|]. split; [|split].
  - right. right. by exists (VStr "calA").
  - by vm_compute; eexists.
  - reflexivity.
Qed.

(** C6.  With caching on, a read that missed and succeeded is followed,
    within its TTL, by the same request (same operation, same normalized
    arguments) being served from the cache: the two invocations make
    exactly one call to the tool-call façade and the second returns the
    value the first returned.  With [cacheDisabled] set (the [bypassCache]
    the client passes) or the cache disabled, every invocation calls the
    façade and the cache is left as it was. *)
Theorem read_through_cache JSON_parse server :
  (∀ r1 r2 w0 v w1 d,
     cacheDisabled w0 = false → enabled (cache w0) = true →
     lookup_fresh (now w0) (read_key r1) (cache w0) = None →
     run_read JSON_parse server r1 w0 = (Ok v, w1) →
     same_request r1 r2 → (d < read_ttl r1)%N →
     run_read JSON_parse server r2 (advance d w1) = (Ok v, advance d w1) ∧
     calls (advance d w1) = (calls w0 ++ [(read_tool r1, read_args r1)])%list) ∧
  (∀ r w res w',
     cacheDisabled w = true ∨ enabled (cache w) = false →
     run_read JSON_parse server r w = (res, w') →
     calls w' = (calls w ++ [(read_tool r, read_args r)])%list ∧
     cache w' = cache w).
Proof.
  split.
  - intros r1 r2 w0 v w1 d Hflag Hon Hmiss Hrun Hsame Hd.
    destruct (read_miss_stores _ _ _ _ _ _ Hflag Hon Hmiss Hrun) as (Hc & Hf & Hl).
    split; [|done].
    rewrite run_read_eq, <- (same_request_key _ _ Hsame). unfold getOrFetch. simpl.
    rewrite Hf, Hc. simpl. rewrite Hon. simpl.
    rewrite lookup_fresh_put; [done|].
    lia.
  - intros r w res w' Hoff. rewrite run_read_eq. unfold getOrFetch.
    assert (cacheDisabled w || negb (enabled (cache w)) = true) as ->.
    { destruct Hoff as [-> | ->]; [done|apply orb_true_r]. }
    intros Hcall. apply callTool_frame in Hcall as (Hc & _ & Hl). done.
Qed.

(** [list-messages --top 10] twice, the second time just before the five
    minutes are over and with its options in another order; and once with
    the cache disabled. *)
Lemma read_through_cache_witness :
  let r := ListMailMessages (Some [("top", VNum 10)]) in
  let r' := ListMailMessages (Some [("skip", VUndef); ("top", VNum 10)]) in
  let later := advance 299999 inbox_cached in
  (run_read Json.parse ok_server r' later = (Ok (RawText "done list-mail-messages"), later) ∧
   calls later = [("list-mail-messages", [("top", VNum 10)])]) ∧
  (let off := (disableCache fresh_world).2 in
   let out := run_read Json.parse ok_server r off in
   calls out.2 = [("list-mail-messages", [("top", VNum 10)])] ∧
   cache out.2 = cache off).
Proof.
  intros r r' later. split.
  - apply (proj1 (read_through_cache Json.parse ok_server) r r' fresh_world
             (RawText "done list-mail-messages") inbox_cached 299999%N);
      try reflexivity.
    split; reflexivity.
  - intros off out.
    apply (proj2 (read_through_cache Json.parse ok_server) r off out.1 out.2).
    + by left.
    + reflexivity.
Defined.

(** C7, as the code has it.  A read that missed and succeeded stores its
    value with the TTL of its tier: 5 minutes for message lists, folder
    message lists, task lists and search; 15 minutes for a message, an
    event, a calendar view, and also for event lists and contact lists;
    1 hour for the folder list and the calendar list.  The entry answers
    reads until that time has passed and no longer. *)
Theorem read_ttl_tiers JSON_parse server r w v w' :
  cacheDisabled w = false → enabled (cache w) = true →
  lookup_fresh (now w) (read_key r) (cache w) = None →
  run_read JSON_parse server r w = (Ok v, w') →
  let tier :=
    match r with
    | ListMailMessages _ | ListMailFolderMessages _ _ | ListTasks _ | Search _ _ =>
      FIVE_MINUTES
    | GetMailMessage _ | GetCalendarEvent _ _ | GetCalendarView _ _ _
    | ListCalendarEvents _ | ListContacts _ =>
      FIFTEEN_MINUTES
    | ListMailFolders | ListCalendars => HOUR
    end in
  store (cache w') !! read_key r = Some (Entry v (now w') tier) ∧
  ∀ d, lookup_fresh (now w' + d) (read_key r) (cache w') =
       if (d <? tier)%N then Some v else None.
Proof.
  intros Hflag Hon Hmiss Hrun tier.
  destruct (read_miss_stores _ _ _ _ _ _ Hflag Hon Hmiss Hrun) as (Hc & _ & _).
  assert (Hlook : store (cache w') !! read_key r = Some (Entry v (now w') tier)).
  { rewrite Hc. simpl. rewrite lookup_insert_eq. by destruct r. }
  split; [done|]. intros d. unfold lookup_fresh, fresh. rewrite Hlook. simpl.
  destruct (N.ltb_spec d tier), (N.ltb_spec (now w' + d) (now w' + tier)); done || lia.
Qed.

(** The event list on a fresh client. *)
Lemma read_ttl_tiers_witness :
  let r := ListCalendarEvents None in
  let w' := (run_read Json.parse ok_server r fresh_world).2 in
  store (cache w') !! read_key r =
    Some (Entry (RawText "done list-calendar-events") (now w') FIFTEEN_MINUTES) ∧
  ∀ d, lookup_fresh (now w' + d) (read_key r) (cache w') =
       if (d <? FIFTEEN_MINUTES)%N then Some (RawText "done list-calendar-events") else None.
Proof.
  intros r w'.
  apply (read_ttl_tiers Json.parse ok_server r fresh_world
           (RawText "done list-calendar-events") w'); reflexivity.
Defined.

(** C7, as stated, fails: the event list is a list-style read, and it is
    cached for 15 minutes, not 5. *)
Lemma event_list_not_five_minutes :
  ¬ (∀ r w v w',
       list_style r = true →
       cacheDisabled w = false → enabled (cache w) = true →
       lookup_fresh (now w) (read_key r) (cache w) = None →
       run_read Json.parse ok_server r w = (Ok v, w') →
       ∃ e, store (cache w') !! read_key r = Some e ∧ ttl e = FIVE_MINUTES).
Proof.
  intros H.
  destruct (H (ListCalendarEvents None) fresh_world
              (RawText "done list-calendar-events") _
              eq_refl eq_refl eq_refl eq_refl eq_refl) as (e & He & Httl).
  vm_compute in He. injection He as <-. discriminate Httl.
Qed.

(** C8, as the code has it.  The argument object of an operation holds an
    optional parameter exactly when the value given for it is truthy: a
    parameter left unset, or set to [0] or to the empty string, is omitted.
    [updateCalendarEvent] instead copies every property of its options
    object, whatever its value.  The argument object built is the one the
    tool-call façade receives.  Cache keys do not depend on the order in
    which an argument object lists its properties. *)
Theorem optional_parameters_in_args :
  (∀ c k v,
     is_update c = false → In (k, v) (optional_parameters c) →
     has_key (tool_args c) k = truthy v) ∧
  (∀ eventId options k,
     has_key (updateCalendarEvent_args eventId options) k = true ↔
     k = "eventId" ∨ k ∈ keys options) ∧
  (∀ JSON_parse server c w res w',
     run_write JSON_parse server c w = (res, w') →
     calls w' = (calls w ++ [(write_tool c, write_args c)])%list) ∧
  (∀ operation o1 o2,
     NoDup (keys o1) → o1 ≡ₚ o2 →
     createCacheKey operation o1 = createCacheKey operation o2).
Proof.
  split; [exact guarded_parameter|]. split; [|split].
  - intros eventId options k. unfold has_key, updateCalendarEvent_args.
    rewrite bool_decide_eq_true, keys_spread.
    change (keys [("eventId", VStr eventId)]) with ["eventId"].
    by rewrite list_elem_of_singleton.
  - intros JSON_parse server c w res w'. rewrite run_write_eq.
    destruct (callTool _ _ _ _ w) as [[v|e] w1] eqn:Hcall; intros [= _ <-];
      by apply callTool_frame in Hcall as (_ & _ & Hl).
  - exact createCacheKey_Permutation.
Qed.

(** [listMailMessages({top: 10, skip: 0})] sends [top] and no [skip]; two
    orders of the same options give one key. *)
Lemma optional_parameters_in_args_witness :
  has_key (listMailMessages_args (Some [("top", VNum 10); ("skip", VNum 0)])) "top" = true ∧
  has_key (listMailMessages_args (Some [("top", VNum 10); ("skip", VNum 0)])) "skip" = false ∧
  createCacheKey "mail_messages" [("top", VNum 10); ("filter", VStr "isRead eq false")] =
  createCacheKey "mail_messages" [("filter", VStr "isRead eq false"); ("top", VNum 10)].
Proof.
  destruct optional_parameters_in_args as (Hguard & _ & _ & Hkey).
  split; [|split].
  - apply (Hguard (ReadCall (ListMailMessages (Some [("top", VNum 10); ("skip", VNum 0)])))
             "top" (VNum 10)); [reflexivity|]. left. reflexivity.
  - apply (Hguard (ReadCall (ListMailMessages (Some [("top", VNum 10); ("skip", VNum 0)])))
             "skip" (VNum 0)); [reflexivity|]. right. left. reflexivity.
  - apply Hkey; [|apply perm_swap].
    apply NoDup_cons. split; [|apply NoDup_singleton].
    intros H. apply list_elem_of_singleton in H. discriminate H.
Defined.

(** C8, as stated, fails in both directions: [list-messages --skip 0]
    sends no [skip] although the caller set it, and [update-event --id e1
    --start ...] sends a [subject] key although the caller did not set
    it. *)
Lemma set_is_not_sent :
  ¬ (∀ c k v,
       is_update c = false → In (k, v) (optional_parameters c) →
       (has_key (tool_args c) k = true ↔ v ≠ VUndef)) ∧
  ¬ (∀ c k v,
       is_update c = true → In (k, v) (optional_parameters c) →
       (has_key (tool_args c) k = true ↔ v ≠ VUndef)).
Proof.
  split; intros H.
  - destruct (H (ReadCall (Cli.list_messages VUndef (VNum 0) VUndef VUndef))
                "skip" (VNum 0) eq_refl) as [_ Hset]; [right; left; reflexivity|].
    discriminate Hset. discriminate.
  - destruct (H (WriteCall (Cli.update_event "e1" VUndef (VStr "2024-01-01T10:00:00Z")
                              VUndef VUndef VUndef VUndef))
                "subject" VUndef eq_refl) as [Hsent _]; [left; reflexivity|].
    by apply Hsent.
Qed.

End CacheClaims.

(** * The session guard: invariants of [connect] *)

Module SessionFacts.
Import Js Mcp Session.

Section Guard.

Variable JSON_parse : string → option Json.json.

Abbreviation step := (step JSON_parse).
Abbreviation run := (run JSON_parse).
Abbreviation authenticated := (authenticated JSON_parse).

Lemma run_app s t1 t2 : run s (t1 ++ t2) = run (run s t1) t2.
Proof. apply fold_left_app. Qed.

Lemma run_cons s e t : run s (e :: t) = run (step s e) t.
Proof. reflexivity. Qed.













End Guard.

End SessionFacts.

(** * The session claims *)

Module SessionClaims.
Import Js JsFacts Mcp Session SessionFacts Scenario.




(** The pre-flight is issued exactly when [skipAuthCheck] is not set. *)
Lemma preflight_unless_skipped JSON_parse s a :
  attempts s !! a = Some AwaitingTransport →
  let s' := step JSON_parse s (TransportConnected a) in
  if skipAuthCheck s
  then statusChecks s' = statusChecks s ∧ attempts s' !! a = Some Fulfilled
  else statusChecks s' = S (statusChecks s) ∧ attempts s' !! a = Some AwaitingAuth.
Proof.
  intros Ha. simpl. rewrite Ha. unfold transport_connected.
  pose proof (lookup_lt_Some _ _ _ Ha).
  destruct (skipAuthCheck s); simpl; by rewrite list_lookup_insert_eq.
Qed.

(** A reply [checkAuth] does not accept rejects the run with the
    authentication-required message. *)
Lemma preflight_rejects JSON_parse s a items :
  attempts s !! a = Some AwaitingAuth →
  authenticated JSON_parse items = false →
  attempts (step JSON_parse s (AuthReplied a items)) !! a = Some (Rejected auth_check_message) ∧
  startsWith auth_check_message "AUTHENTICATION_REQUIRED" = true.
Proof.
  intros Ha Hno. simpl. unfold checkAuth. rewrite Ha, Hno. simpl.
  pose proof (lookup_lt_Some _ _ _ Ha).
  by rewrite list_lookup_insert_eq.
Qed.

(** C5, at the failing input.  The server answers the [verify-login]
    pre-flight with the plain text [unauthenticated]: the status check was
    issued, [isAuthError] itself counts the word as an authentication
    failure, and yet [connect()] succeeds. *)
Lemma unauthenticated_reply_connects :
  let s := run Json.parse initial
             [CallConnect; TransportConnected 0;
              AuthReplied 0 [text_item "unauthenticated"]] in
  skipAuthCheck s = false ∧ statusChecks s = 1 ∧
  Auth.isAuthError "unauthenticated" = true ∧
  observed s 0 = Some Fulfilled.
Proof. vm_compute. done. Qed.

(** A JSON reply that reports the login as failed is rejected with the
    authentication-required message. *)
Example unauthenticated_json_reply_rejected :
  let reply := [text_item ("{" +:+ Json.quoted "success" +:+ ": false}")] in
  observed (run Json.parse initial [CallConnect; TransportConnected 0; AuthReplied 0 reply]) 0 =
  Some (Rejected auth_check_message).
Proof. reflexivity. Qed.



End SessionClaims.

(** * The tool-call façade *)

Module FacadeClaims.
Import Js JsFacts Mcp Cache Client Scenario.

Lemma text_or_first_text items fallback :
  text_or items fallback =
  match first_text items with
  | Some t => if String.eqb t "" then fallback else t
  | None => fallback
  end.
Proof. unfold text_or, first_text. by destruct (find_text items) as [[ty [t|]]|]. Qed.

Lemma auth_required_message_marker errorText :
  startsWith (auth_required_message errorText) "AUTHENTICATION_REQUIRED: " = true ∧
  includes (auth_required_message errorText) errorText = true.
Proof.
  split; [apply startsWith_app|]. unfold auth_required_message.
  apply includes_intro.
Qed.

(** C4, as the code has it.  Once [connect()] has returned and the server
    has answered, [callTool] classifies the response by its first item of
    type [text].  Without the error flag: non-empty text that parses as
    JSON gives the parsed value; non-empty text that does not parse gives
    the text itself; no text (no item of type [text], or one whose text is
    missing or empty) gives the content list.  With the error flag: the
    error text is the server's text, or [Tool call failed] when there is
    none; if [isAuthError] flags it the authentication-required error is
    thrown, its message starting with the marker and quoting the text;
    otherwise an error with exactly the error text is thrown. *)
Theorem callTool_classification JSON_parse server name args w d r :
  server (calls w) name args = Responds d r →
  let w' := advance d (record_call name args w) in
  let out := callTool JSON_parse server name args w in
  (isError r = false →
   (∀ t v, first_text (content r) = Some t → t ≠ "" → JSON_parse t = Some v →
      out = (Ok (Parsed v), w')) ∧
   (∀ t, first_text (content r) = Some t → t ≠ "" → JSON_parse t = None →
      out = (Ok (RawText t), w')) ∧
   (first_text (content r) = None ∨ first_text (content r) = Some "" →
      out = (Ok (RawContent (content r)), w'))) ∧
  (isError r = true →
   let errorText := text_or (content r) "Tool call failed" in
   (∀ t, first_text (content r) = Some t → t ≠ "" → errorText = t) ∧
   (isAuthError errorText = true →
      ∃ message, out = (Throw message, w') ∧
        startsWith message "AUTHENTICATION_REQUIRED: " = true ∧
        includes message errorText = true) ∧
   (isAuthError errorText = false → out = (Throw errorText, w'))).
Proof.
  intros Hsrv w' out. unfold out, callTool. rewrite Hsrv. fold w'.
  unfold classify, first_text. split; intros Herr; rewrite Herr.
  - split; [|split].
    + intros t v Ht Hne Hv. destruct (find_text (content r)) as [c|]; [|done].
      simpl in Ht. rewrite Ht. apply String.eqb_neq in Hne as ->. by rewrite Hv.
    + intros t Ht Hne Hv. destruct (find_text (content r)) as [c|]; [|done].
      simpl in Ht. rewrite Ht. apply String.eqb_neq in Hne as ->. by rewrite Hv.
    + intros [Ht|Ht]; destruct (find_text (content r)) as [c|]; try done;
        simpl in Ht; by rewrite Ht.
  - set (errorText := text_or (content r) "Tool call failed"). split; [|split].
    + intros t Ht Hne. unfold errorText. rewrite text_or_first_text.
      unfold first_text. rewrite Ht. by apply String.eqb_neq in Hne as ->.
    + intros Hauth. rewrite Hauth.
      exists (auth_required_message errorText). split; [done|].
      apply auth_required_message_marker.
    + intros Hauth. by rewrite Hauth.
Qed.

(** A JSON answer is handed back parsed. *)
Lemma callTool_classification_witness :
  callTool Json.parse json_server "list-tasks" [] fresh_world =
  (Ok (Parsed (Json.JObj [("count", Json.JNum "3")])),
   advance 50 (record_call "list-tasks" [] fresh_world)).
Proof.
  destruct (callTool_classification Json.parse json_server "list-tasks" [] fresh_world 50
              (ToolResponse false [text_item ("{" +:+ Json.quoted "count" +:+ ": 3}")])
              eq_refl) as [Hok _].
  destruct (Hok eq_refl) as (Hjson & _ & _).
  apply (Hjson ("{" +:+ Json.quoted "count" +:+ ": 3}")); [reflexivity|discriminate|reflexivity].
Defined.

(** C4, as stated, fails: the empty text of a text item is not JSON, yet
    the response is answered with its content list, not with the text. *)
Lemma empty_text_returns_content :
  ¬ (∀ server name args w d r t,
       server (calls w) name args = Responds d r →
       isError r = false →
       first_text (content r) = Some t → Json.parse t = None →
       (callTool Json.parse server name args w).1 = Ok (RawText t)).
Proof.
  intros H.
  specialize (H empty_text_server "list-tasks" [] fresh_world 50%N
                (ToolResponse false [text_item ""]) "" eq_refl eq_refl eq_refl eq_refl).
  discriminate H.
Qed.

Example callTool_401 :
  (callTool Json.parse (failing_server "401 Unauthorized") "list-tasks" [] fresh_world).1 =
  Throw (auth_required_message "401 Unauthorized").
Proof. reflexivity. Qed.

Example callTool_generic_failure :
  (callTool Json.parse (failing_server "Folder not found") "list-tasks" [] fresh_world).1 =
  Throw "Folder not found".
Proof. reflexivity. Qed.

End FacadeClaims.

(** * Part III: further properties *)

(** * Further properties of the session guard *)

Module SessionMore.
Import Js JsFacts Mcp Session SessionFacts Scenario Traces.

Section Guard.

Variable JSON_parse : string → option Json.json.

Abbreviation step := (step JSON_parse).
Abbreviation run := (run JSON_parse).
Abbreviation authenticated := (authenticated JSON_parse).

Lemma run_snoc s trace e : run s (trace ++ [e]) = step (run s trace) e.
Proof. unfold Session.run. by rewrite fold_left_app. Qed.

(** Replacing one element changes a filtered count by the difference of the
    two elements. *)
Lemma count_insert (f : attempt → bool) (l : list attempt) a x y :
  l !! a = Some x →
  length (List.filter f (<[a := y]> l)) + (if f x then 1 else 0) =
  length (List.filter f l) + (if f y then 1 else 0).
Proof.
  revert a. induction l as [|z l IH]; intros a Ha; [by rewrite lookup_nil in Ha|].
  destruct a as [|a]; simpl in *.
  - injection Ha as ->. destruct (f x), (f y); simpl; lia.
  - specialize (IH a Ha). destruct (f z); simpl; lia.
Qed.

Lemma count_app (f : attempt → bool) (l1 l2 : list attempt) :
  length (List.filter f (l1 ++ l2)) =
  length (List.filter f l1) + length (List.filter f l2).
Proof. by rewrite List.filter_app, length_app. Qed.

Lemma answered_le s : (answered s ≤ length (attempts s))%nat.
Proof. unfold answered. apply List.filter_length_le. Qed.

Lemma checks_step s e :
  (statusChecks s ≤ answered s)%nat →
  (statusChecks (step s e) ≤ answered (step s e))%nat.
Proof.
  unfold answered. intros H.
  destruct e as [|b|a|a m|a items|a m|]; simpl.
  - unfold connect. destruct (connectPromise s); simpl; [done|].
    rewrite count_app. simpl. lia.
  - done.
  - destruct (attempts s !! a) as [[| | |]|] eqn:Ha; try done.
    unfold transport_connected. destruct (skipAuthCheck s); simpl.
    + pose proof (count_insert past_transport _ _ _ Fulfilled Ha). simpl in *. lia.
    + pose proof (count_insert past_transport _ _ _ AwaitingAuth Ha). simpl in *. lia.
  - destruct (attempts s !! a) as [[| | |]|] eqn:Ha; try done. simpl.
    pose proof (count_insert past_transport _ _ _ (Rejected m) Ha). simpl in *. lia.
  - destruct (attempts s !! a) as [[| | |]|] eqn:Ha; try done.
    unfold checkAuth. destruct (authenticated items); simpl.
    + pose proof (count_insert past_transport _ _ _ Fulfilled Ha). simpl in *. lia.
    + pose proof (count_insert past_transport _ _ _ (Rejected auth_check_message) Ha).
      simpl in *. lia.
  - destruct (attempts s !! a) as [[| | |]|] eqn:Ha; try done. simpl.
    pose proof (count_insert past_transport _ _ _ (Rejected m) Ha). simpl in *. lia.
  - unfold disconnect. by destruct (has_client s && connected s).
Qed.

Lemma checks_run s trace :
  (statusChecks s ≤ answered s)%nat →
  (statusChecks (run s trace) ≤ answered (run s trace))%nat.
Proof.
  revert s. induction trace as [|e trace IH]; intros s H; [done|].
  rewrite run_cons. by apply IH, checks_step.
Qed.

End Guard.

(** X1.  Whatever happens to a new client, [checkAuth] has issued at most
    one [verify-login] status check per run of [doConnect] whose transport
    connection was answered, hence at most one per run started. *)
Theorem status_checks_bounded JSON_parse trace :
  let s := run JSON_parse initial trace in
  (statusChecks s ≤ answered s ∧ answered s ≤ length (attempts s))%nat.
Proof.
  intros s. split; [|apply answered_le].
  apply checks_run. unfold answered. simpl. lia.
Qed.

(** X2.  Once [skipAuthCheck] is set, and for as long as nothing clears
    it, no [verify-login] status check is issued, whatever else happens:
    the flag stays set and the count of status checks does not move. *)
Theorem no_status_check_while_skipping JSON_parse s trace :
  skipAuthCheck s = true →
  Forall (λ e, clears_skip e = false) trace →
  skipAuthCheck (run JSON_parse s trace) = true ∧
  statusChecks (run JSON_parse s trace) = statusChecks s.
Proof.
  revert s. induction trace as [|e trace IH]; intros s Hskip Hall; [done|].
  apply Forall_cons in Hall as [He Hall]. rewrite run_cons.
  assert (Hstep : skipAuthCheck (step JSON_parse s e) = true ∧
                  statusChecks (step JSON_parse s e) = statusChecks s).
  { destruct e as [|b|a|a m|a items|a m|]; simpl.
    - unfold connect. by destruct (connectPromise s).
    - by destruct b.
    - destruct (attempts s !! a) as [[| | |]|]; try done.
      unfold transport_connected. by rewrite Hskip.
    - by destruct (attempts s !! a) as [[| | |]|].
    - destruct (attempts s !! a) as [[| | |]|]; try done.
      by destruct (checkAuth JSON_parse items).
    - by destruct (attempts s !! a) as [[| | |]|].
    - unfold disconnect. by destruct (has_client s && connected s). }
  destruct Hstep as [Hs Hc]. destruct (IH _ Hs Hall) as [H1 H2].
  split; [done|]. by rewrite H2.
Qed.

(** The [login] handler on a new client: the flag is set, [connect()] is
    called, the transport connects, and [connect()] has resolved without a
    status check. *)
Lemma no_status_check_while_skipping_witness :
  let s := step Json.parse initial (SetSkipAuthCheck true) in
  let s' := run Json.parse s [CallConnect; TransportConnected 0] in
  (skipAuthCheck s' = true ∧ statusChecks s' = 0) ∧ observed s' 0 = Some Fulfilled.
Proof.
  intros s s'. split; [|reflexivity].
  apply (no_status_check_while_skipping Json.parse s [CallConnect; TransportConnected 0]).
  - reflexivity.
  - repeat constructor.
Defined.

Lemma skip_needs_event JSON_parse trace :
  skipAuthCheck (run JSON_parse initial trace) = true →
  In (SetSkipAuthCheck true) trace.
Proof.
  induction trace as [|e trace IH] using rev_ind; [done|].
  rewrite run_snoc, in_app_iff. set (s := run JSON_parse initial trace) in *.
  destruct e as [|b|a|a m|a items|a m|]; simpl.
  - unfold connect. destruct (connectPromise s); simpl; auto.
  - intros ->. right. by left.
  - destruct (attempts s !! a) as [[| | |]|]; auto.
    unfold transport_connected. destruct (skipAuthCheck s) eqn:Hs; simpl; auto.
  - destruct (attempts s !! a) as [[| | |]|]; simpl; auto.
  - destruct (attempts s !! a) as [[| | |]|]; auto.
    destruct (checkAuth JSON_parse items); simpl; auto.
  - destruct (attempts s !! a) as [[| | |]|]; simpl; auto.
  - unfold disconnect. destruct (has_client s && connected s); simpl; auto.
Qed.

Lemma lookup_insert_Fulfilled (l : list attempt) a b y :
  <[b := y]> l !! a = Some Fulfilled →
  (a = b ∧ y = Fulfilled) ∨ l !! a = Some Fulfilled.
Proof.
  intros H. destruct (decide (b = a)) as [->|Hne].
  - destruct (decide (a < length l)) as [Hlt|Hge].
    + rewrite list_lookup_insert_eq in H by done. left. split; congruence.
    + rewrite list_insert_ge in H by lia. by right.
  - rewrite list_lookup_insert_ne in H by done. by right.
Qed.

(** X3.  On a new client, [connect()] never resolves for a run unless
    [checkAuth] accepted a [verify-login] reply for that very run, or
    [skipAuthCheck] was set at some point. *)
Theorem fulfilled_needs_accepted_reply JSON_parse trace a :
  attempts (run JSON_parse initial trace) !! a = Some Fulfilled →
  (∃ items, In (AuthReplied a items) trace ∧ authenticated JSON_parse items = true) ∨
  In (SetSkipAuthCheck true) trace.
Proof.
  induction trace as [|e trace IH] using rev_ind; [simpl; by rewrite lookup_nil|].
  rewrite run_snoc. set (s := run JSON_parse initial trace) in *.
  assert (Hold : attempts s !! a = Some Fulfilled →
    (∃ items, In (AuthReplied a items) (trace ++ [e]) ∧
              authenticated JSON_parse items = true) ∨
    In (SetSkipAuthCheck true) (trace ++ [e])).
  { intros H. destruct (IH H) as [(items & Hin & Hok)|Hin].
    - left. exists items. split; [|done]. apply in_app_iff. by left.
    - right. apply in_app_iff. by left. }
  destruct e as [|b0|b|b m|b items|b m|]; simpl.
  - unfold connect. destruct (connectPromise s); simpl; [done|].
    intros H. apply lookup_app_Some in H as [H|[_ H]]; [by apply Hold|].
    destruct (a - length (attempts s)) as [|n]; simpl in H; [done|].
    by rewrite lookup_nil in H.
  - done.
  - destruct (attempts s !! b) as [[| | |]|] eqn:Hb; try done.
    unfold transport_connected. destruct (skipAuthCheck s) eqn:Hs; simpl; intros H;
      apply lookup_insert_Fulfilled in H as [[-> Hy]|H]; try done; try by apply Hold.
    right. apply in_app_iff. left. by apply (skip_needs_event JSON_parse).
  - destruct (attempts s !! b) as [[| | |]|] eqn:Hb; try done. simpl. intros H.
    apply lookup_insert_Fulfilled in H as [[-> Hy]|H]; [done|by apply Hold].
  - destruct (attempts s !! b) as [[| | |]|] eqn:Hb; try done.
    unfold checkAuth. destruct (authenticated JSON_parse items) eqn:Hok; simpl; intros H;
      apply lookup_insert_Fulfilled in H as [[-> Hy]|H]; try done; try by apply Hold.
    left. exists items. split; [|done]. apply in_app_iff. right. by left.
  - destruct (attempts s !! b) as [[| | |]|] eqn:Hb; try done. simpl. intros H.
    apply lookup_insert_Fulfilled in H as [[-> Hy]|H]; [done|by apply Hold].
  - unfold disconnect. by destruct (has_client s && connected s).
Qed.

(** A run that resolved after the JSON reply [{"authenticated": true}]. *)
Lemma fulfilled_needs_accepted_reply_witness :
  let reply := [text_item ("{" +:+ Json.quoted "authenticated" +:+ ": true}")] in
  let trace := [CallConnect; TransportConnected 0; AuthReplied 0 reply] in
  (∃ items, In (AuthReplied 0 items) trace ∧ authenticated Json.parse items = true) ∨
  In (SetSkipAuthCheck true) trace.
Proof.
  intros reply trace.
  apply (fulfilled_needs_accepted_reply Json.parse trace 0). reflexivity.
Defined.

Lemma not_connected_before_transport JSON_parse trace :
  Forall (λ e, is_transport_connected e = false) trace →
  connected (run JSON_parse initial trace) = false.
Proof.
  induction trace as [|e trace IH] using rev_ind; [done|].
  intros Hall. apply Forall_app in Hall as [Hall He]. apply Forall_inv in He.
  specialize (IH Hall). rewrite run_snoc.
  set (s := run JSON_parse initial trace) in *.
  destruct e as [|b|a|a m|a items|a m|]; simpl in *; try done.
  - unfold connect. by destruct (connectPromise s).
  - by destruct (attempts s !! a) as [[| | |]|]; simpl.
  - destruct (attempts s !! a) as [[| | |]|]; try done.
    by destruct (checkAuth JSON_parse items); simpl.
  - by destruct (attempts s !! a) as [[| | |]|]; simpl.
  - unfold disconnect. by destruct (has_client s && connected s).
Qed.

(** X4.  On a new client, a [disconnect()] called before the transport of
    any run has connected does nothing at all: the execution goes on exactly
    as if it had not been called, the pending [connect()] included. *)
Theorem early_disconnect_is_noop JSON_parse before after :
  Forall (λ e, is_transport_connected e = false) before →
  run JSON_parse initial (before ++ CallDisconnect :: after) =
  run JSON_parse initial (before ++ after).
Proof.
  intros Hall. rewrite !run_app, run_cons. f_equal. simpl. unfold disconnect.
  by rewrite (not_connected_before_transport _ _ Hall), andb_false_r.
Qed.

(** [connect()], then [disconnect()], then the transport connects: the
    caller is still waiting on the pre-flight of its run. *)
Lemma early_disconnect_is_noop_witness :
  let s := run Json.parse initial [CallConnect; CallDisconnect; TransportConnected 0] in
  s = run Json.parse initial [CallConnect; TransportConnected 0] ∧
  observed s 0 = Some AwaitingAuth.
Proof.
  intros s. split; [|reflexivity].
  apply (early_disconnect_is_noop Json.parse [CallConnect] [TransportConnected 0]).
  repeat constructor.
Defined.



(** X6.  Only [disconnect()] clears the [connected] flag: once the
    transport has connected, no failure of a run, neither of a later
    handshake nor of the pre-flight, marks the client as disconnected. *)
Theorem connected_until_disconnect JSON_parse s trace :
  connected s = true →
  Forall (λ e, is_disconnect e = false) trace →
  connected (run JSON_parse s trace) = true.
Proof.
  revert s. induction trace as [|e trace IH]; intros s Hc Hall; [done|].
  apply Forall_cons in Hall as [He Hall]. rewrite run_cons. apply IH; [|done].
  destruct e as [|b|a|a m|a items|a m|]; simpl; try done.
  - unfold connect. by destruct (connectPromise s).
  - destruct (attempts s !! a) as [[| | |]|]; try done.
    unfold transport_connected. by destruct (skipAuthCheck s); simpl.
  - by destruct (attempts s !! a) as [[| | |]|]; simpl.
  - destruct (attempts s !! a) as [[| | |]|]; try done.
    by destruct (checkAuth JSON_parse items); simpl.
  - by destruct (attempts s !! a) as [[| | |]|]; simpl.
Qed.

(** The pre-flight rejects the reply [{"success": false}]: [connect()] has
    failed and the client still counts as connected. *)
Lemma connected_until_disconnect_witness :
  let reply := [text_item ("{" +:+ Json.quoted "success" +:+ ": false}")] in
  let s := run Json.parse initial [CallConnect; TransportConnected 0] in
  let s' := run Json.parse s [AuthReplied 0 reply; CallConnect; TransportFailed 1 "spawn ENOENT"] in
  connected s' = true ∧
  attempts s' = [Rejected auth_check_message; Rejected "spawn ENOENT"].
Proof.
  intros reply s s'. split; [|reflexivity].
  apply (connected_until_disconnect Json.parse s
           [AuthReplied 0 reply; CallConnect; TransportFailed 1 "spawn ENOENT"]).
  - reflexivity.
  - repeat constructor.
Defined.

End SessionMore.

(** * Further properties of the façade *)

Module ObjMore.
Import Js ObjFacts.

Lemma get_set (o : obj) (k : string) (v : jsval) (k' : string) :
  get (set o k v) k' = if decide (k = k') then v else get o k'.
Proof.
  induction o as [|[k0 v0] o IH]; simpl.
  - by destruct (decide (k = k')).
  - destruct (decide (k0 = k)) as [->|Hne]; simpl.
    + by destruct (decide (k = k')).
    + destruct (decide (k0 = k')) as [->|Hne'].
      * by rewrite decide_False by congruence.
      * done.
Qed.

Lemma get_set_if_truthy (o : obj) (k : string) (v : jsval) (k' : string) :
  get (set_if_truthy o k v) k' =
  if bool_decide (k = k') && truthy v then v else get o k'.
Proof.
  unfold set_if_truthy. destruct (truthy v).
  - rewrite get_set, andb_true_r. unfold bool_decide.
    by destruct (decide (k = k')), (decide_rel eq k k').
  - by rewrite andb_false_r.
Qed.

Lemma get_missing (o : obj) (k : string) : k ∉ keys o → get o k = VUndef.
Proof.
  unfold keys. induction o as [|[k0 v0] o IH]; simpl; [done|]. intros H.
  apply not_elem_of_cons in H as [Hne H]. rewrite decide_False by congruence. auto.
Qed.

(** With distinct property names in the source object, a spread reads as
    the source where it has the property and as the base elsewhere. *)
Lemma get_spread (base src : obj) (k : string) :
  NoDup (keys src) →
  get (spread base src) k = if decide (k ∈ keys src) then get src k else get base k.
Proof.
  unfold spread. revert base. induction src as [|[k0 v0] src IH]; intros base Hnd.
  - destruct (decide (k ∈ keys [])) as [H|_]; [|done]. by apply elem_of_nil in H.
  - change (keys ((k0, v0) :: src)) with (k0 :: keys src) in *.
    apply NoDup_cons in Hnd as [Hnot Hnd].
    change (fold_left (λ acc kv, set acc kv.1 kv.2) ((k0, v0) :: src) base)
      with (fold_left (λ acc kv, set acc kv.1 kv.2) src (set base k0 v0)).
    rewrite (IH _ Hnd), get_set.
    change (get ((k0, v0) :: src) k) with (if decide (k0 = k) then v0 else get src k).
    destruct (decide (k ∈ keys src)) as [Hin|Hout],
      (decide (k ∈ k0 :: keys src)) as [Hin'|Hout'],
      (decide (k0 = k)) as [->|Hne];
      first [ done
            | exfalso; apply Hout'; by right
            | exfalso; apply Hout'; by left
            | apply elem_of_cons in Hin' as [->|H]; done ].
Qed.

Lemma opt_get_or_empty (options : option obj) (k : string) :
  opt_get options k = get (or_empty options) k.
Proof. by destruct options. Qed.

End ObjMore.

Module FacadeMore.
Import Js JsFacts ObjFacts ObjMore Auth AuthFacts Mcp Cache CacheFacts Client Requests
  ClientFacts Scenario Operations Commands WellFormed Isolation FacadeClaims.


Lemma text_or_nonempty items fallback :
  fallback ≠ "" → text_or items fallback ≠ "".
Proof.
  intros Hf. unfold text_or.
  destruct (find_text items) as [c|]; [|done].
  destruct (c_text c) as [t|]; [|done].
  destruct (String.eqb_spec t ""); done.
Qed.

(** X8.  Once the server has answered, [callTool] throws exactly when the
    response carries the error flag, and the message it throws is never
    empty: an error response without text, or with empty text, is reported
    as [Tool call failed]. *)
Theorem callTool_throws_iff_error JSON_parse server name args w d r :
  server (calls w) name args = Responds d r →
  let out := (callTool JSON_parse server name args w).1 in
  ((∃ message, out = Throw message) ↔ isError r = true) ∧
  (∀ message, out = Throw message → message ≠ "") ∧
  (isError r = true → first_text (content r) = None ∨ first_text (content r) = Some "" →
   out = Throw "Tool call failed").
Proof.
  intros Hsrv out. unfold out, callTool. rewrite Hsrv. simpl. unfold classify.
  pose proof (text_or_nonempty (content r) "Tool call failed") as Hne.
  destruct (isError r) eqn:Herr.
  - split; [|split].
    + split; [done|]. intros _.
      destruct (isAuthError _); by eexists.
    + intros message.
      destruct (isAuthError _); intros [= <-]; [done|by apply Hne].
    + intros _ Hno. rewrite text_or_first_text.
      destruct Hno as [-> | ->]; reflexivity.
  - split; [|split]; [|intros message|done].
    + split; [|done]. intros [message H]. revert H.
      destruct (find_text (content r)) as [c|]; [|done].
      destruct (c_text c) as [t|]; [|done].
      destruct (String.eqb t ""); [done|]. by destruct (JSON_parse t).
    + destruct (find_text (content r)) as [c|]; [|done].
      destruct (c_text c) as [t|]; [|done].
      destruct (String.eqb t ""); [done|]. by destruct (JSON_parse t).
Qed.

(** An error response whose only item is an image. *)
Lemma callTool_throws_iff_error_witness :
  (callTool Json.parse (λ _ _ _, Responds 50 (ToolResponse true [ContentItem "image" None]))
     "get-mail-message" [] fresh_world).1 =
  Throw "Tool call failed".
Proof.
  destruct (callTool_throws_iff_error Json.parse
              (λ _ _ _, Responds 50%N (ToolResponse true [ContentItem "image" None]))
              "get-mail-message" [] fresh_world 50%N
              (ToolResponse true [ContentItem "image" None]) eq_refl) as (_ & _ & H).
  apply H; [reflexivity|by left].
Defined.

Ltac unfold_args :=
  unfold tool_args, read_args, write_args, listMailMessages_args,
    listMailFolderMessages_args, listCalendarEvents_args, getCalendarEvent_args,
    getCalendarView_args, listContacts_args, listTasks_args, search_args,
    sendMail_args, createCalendarEvent_args, deleteCalendarEvent_args,
    createDraftEmail_args;
  cbv zeta.

(** X9.  What a read sends to its tool is determined by what its cache key
    is derived from: two reads of the same operation whose key parameters
    agree property by property call the same tool with the same argument
    object.  An entry found under the key of a request was therefore
    produced by the very tool call the request would have made. *)
Theorem key_parameters_determine_call r1 r2 :
  well_formed r1 → well_formed r2 →
  read_operation r1 = read_operation r2 →
  (∀ k, get (read_params r1) k = get (read_params r2) k) →
  read_tool r1 = read_tool r2 ∧ read_args r1 = read_args r2.
Proof.
  intros Hw1 Hw2 Hop Hget.
  destruct r1, r2; try discriminate Hop; (split; [reflexivity|]);
    simpl in Hget; unfold_args; rewrite ?opt_get_or_empty.
  - by rewrite !Hget.
  - reflexivity.
  - destruct Hw1 as [Hnd1 Hno1], Hw2 as [Hnd2 Hno2].
    assert (Hfolder : VStr folderId = VStr folderId0).
    { specialize (Hget "folderId"). rewrite !get_spread in Hget by done.
      by rewrite !decide_False in Hget by done. }
    assert (Hopt : ∀ k, k ≠ "folderId" →
              get (or_empty options) k = get (or_empty options0) k).
    { intros k Hk. specialize (Hget k). rewrite !get_spread in Hget by done.
      assert (Hbase : ∀ id, get [("folderId", VStr id)] k = VUndef).
      { intros id. simpl. by rewrite decide_False. }
      rewrite !Hbase in Hget.
      destruct (decide (k ∈ keys (or_empty options))) as [H1|H1],
        (decide (k ∈ keys (or_empty options0))) as [H2|H2];
        rewrite ?(get_missing _ _ H1), ?(get_missing _ _ H2); done. }
    injection Hfolder as ->. by rewrite !Hopt.
  - specialize (Hget "id"). simpl in Hget. by injection Hget as ->.
  - reflexivity.
  - by rewrite !Hget.
  - pose proof (Hget "id") as H1. pose proof (Hget "calendarId") as H2.
    simpl in H1, H2. injection H1 as ->. by rewrite H2.
  - pose proof (Hget "start") as H1. pose proof (Hget "end") as H2.
    pose proof (Hget "calendarId") as H3. simpl in H1, H2, H3.
    injection H1 as ->. injection H2 as ->. by rewrite H3.
  - by rewrite !Hget.
  - by rewrite !Hget.
  - pose proof (Hget "query") as H1. pose proof (Hget "entityTypes") as H2.
    simpl in H1, H2. injection H1 as ->. by rewrite H2.
Qed.

(** A folder listing asked for with [skip] left undefined and one asked for
    without [skip] are the same call. *)
Lemma key_parameters_determine_call_witness :
  read_args (ListMailFolderMessages "inbox" (Some [("top", VNum 5); ("skip", VUndef)])) =
  read_args (ListMailFolderMessages "inbox" (Some [("top", VNum 5)])).
Proof.
  apply (key_parameters_determine_call
           (ListMailFolderMessages "inbox" (Some [("top", VNum 5); ("skip", VUndef)]))
           (ListMailFolderMessages "inbox" (Some [("top", VNum 5)]))).
  - split; [|by vm_compute; intros H; repeat (apply elem_of_cons in H as [H|H]; [done|]);
               apply elem_of_nil in H].
    repeat (apply NoDup_cons; split;
            [intros H; repeat (apply elem_of_cons in H as [H|H]; [done|]);
             by apply elem_of_nil in H|]).
    apply NoDup_nil_2.
  - split; [|by vm_compute; intros H; repeat (apply elem_of_cons in H as [H|H]; [done|]);
               apply elem_of_nil in H].
    repeat (apply NoDup_cons; split;
            [intros H; repeat (apply elem_of_cons in H as [H|H]; [done|]);
             by apply elem_of_nil in H|]).
    apply NoDup_nil_2.
  - reflexivity.
  - intros k. simpl. repeat case_decide; done.
Defined.

(** X10.  An optional parameter that is sent is sent with the value the
    caller gave: no operation rewrites, defaults or swaps a value on its way
    to the tool.  [updateCalendarEvent] copies its options over the event id,
    so a property of the options object wins over the [eventId] argument of
    the same name. *)
Theorem optional_values_forwarded :
  (∀ c k v,
     is_update c = false → In (k, v) (optional_parameters c) → truthy v = true →
     get (tool_args c) k = v) ∧
  (∀ eventId options k,
     NoDup (keys options) →
     get (updateCalendarEvent_args eventId options) k =
     if decide (k ∈ keys options) then get options k
     else if decide (k = "eventId") then VStr eventId else VUndef).
Proof.
  split.
  - intros c k v Hup Hin Hv.
    destruct c as [r|c|to subject body options]; [destruct r|destruct c|];
      try discriminate Hup; simpl in Hin;
      repeat (destruct Hin as [[= <- <-]|Hin]); try contradiction;
      unfold_args; rewrite !get_set_if_truthy, ?Hv; simpl;
      repeat match goal with
      | |- context [truthy ?x] => destruct (truthy x)
      end; reflexivity.
  - intros eventId options k Hnd. unfold updateCalendarEvent_args.
    rewrite get_spread by done. destruct (decide (k ∈ keys options)); [done|].
    simpl. by destruct (decide ("eventId" = k)), (decide (k = "eventId")).
Qed.

(** [create-event --location Room1 --calendarId 0] sends the location as
    given. *)
Lemma optional_values_forwarded_witness :
  get (createCalendarEvent_args "Sync" "2024-01-01T10:00:00" "2024-01-01T11:00:00"
         (Some [("location", VStr "Room1"); ("calendarId", VNum 0)])) "location" =
  VStr "Room1".
Proof.
  destruct optional_values_forwarded as [H _].
  apply (H (WriteCall (CreateCalendarEvent "Sync" "2024-01-01T10:00:00" "2024-01-01T11:00:00"
                         (Some [("location", VStr "Room1"); ("calendarId", VNum 0)])))
           "location" (VStr "Room1")); [reflexivity| |reflexivity].
  right. left. reflexivity.
Defined.

(** X11.  Every required flag of a command reaches the tool under the
    tool's name for it and with the value given on the command line; no
    optional flag, whatever its value, can displace it. *)
Theorem required_flags_reach_tool cmd c k v :
  facade cmd = Some c → In (k, v) (required_arguments cmd) →
  has_key (tool_args c) k = true ∧ get (tool_args c) k = v.
Proof.
  intros Hc Hin.
  destruct cmd; try discriminate Hc; injection Hc as <-; simpl in Hin;
    repeat (destruct Hin as [[= <- <-]|Hin]); try contradiction;
    unfold Cli.list_messages, Cli.get_event, Cli.update_event, Cli.delete_event;
    unfold_args; unfold updateCalendarEvent_args;
    rewrite ?has_key_set_if_truthy, ?get_set_if_truthy; simpl;
    repeat match goal with
    | |- context [truthy ?x] => destruct (truthy x)
    end; split; reflexivity.
Qed.

(** [update-event --id e1 --subject Moved]: the event id is sent as
    [eventId]. *)
Lemma required_flags_reach_tool_witness :
  get (write_args (Cli.update_event "e1" (VStr "Moved") VUndef VUndef VUndef VUndef VUndef))
    "eventId" = VStr "e1".
Proof.
  apply (required_flags_reach_tool
           (CmdUpdateEvent "e1" (VStr "Moved") VUndef VUndef VUndef VUndef VUndef)
           (WriteCall (Cli.update_event "e1" (VStr "Moved") VUndef VUndef VUndef VUndef VUndef))
           "eventId" (VStr "e1")); [reflexivity|]. left. reflexivity.
Defined.

Lemma append_assoc (a b c : string) : (a +:+ b) +:+ c = a +:+ b +:+ c.
Proof.
  induction a as [|x a IH]; [done|].
  change (String x ((a +:+ b) +:+ c) = String x (a +:+ b +:+ c)). by rewrite IH.
Qed.

Lemma isAuthError_app (pre sub post : string) :
  isAuthError sub = true → isAuthError (pre +:+ sub +:+ post) = true.
Proof.
  rewrite !isAuthError_existsb, !existsb_exists. intros (w & Hw & Hinc).
  exists w. split; [done|].
  apply includes_spec in Hinc as (a & b & Hsub). apply includes_spec.
  rewrite !toLowerCase_app, Hsub.
  exists (toLowerCase pre +:+ a), (b +:+ toLowerCase post).
  by rewrite !append_assoc.
Qed.

(** X12.  [isAuthError] is monotone under containment: a text that contains
    an authentication error is one, whatever surrounds it.  Prefixing an
    error with a tool name or a timestamp never hides it from the
    classifier. *)
Theorem isAuthError_monotone (s sub : string) :
  includes s sub = true → isAuthError sub = true → isAuthError s = true.
Proof.
  intros Hin Hsub. apply includes_spec in Hin as (pre & post & ->).
  by apply isAuthError_app.
Qed.

Lemma isAuthError_monotone_witness :
  isAuthError "MCP error -32603: Token expired (trace 7f3a)" = true.
Proof.
  apply (isAuthError_monotone "MCP error -32603: Token expired (trace 7f3a)" "Token expired");
    reflexivity.
Defined.

(** X13.  The message [callTool] throws for an error response is classified
    by [isAuthError] exactly as the error text was: the
    [AUTHENTICATION_REQUIRED] wrapping keeps an authentication error
    recognisable, and an error that is not one is thrown unchanged.  A caller
    that catches the error and classifies its message again reaches the same
    verdict. *)
Theorem thrown_message_keeps_verdict JSON_parse server name args w d r message :
  server (calls w) name args = Responds d r →
  (callTool JSON_parse server name args w).1 = Throw message →
  let errorText := text_or (content r) "Tool call failed" in
  isAuthError message = isAuthError errorText ∧
  (isAuthError errorText = false → message = errorText).
Proof.
  intros Hsrv Hthrow errorText. unfold callTool in Hthrow. rewrite Hsrv in Hthrow.
  cbn [fst] in Hthrow. unfold classify in Hthrow. fold errorText in Hthrow.
  destruct (isError r).
  - destruct (isAuthError errorText) eqn:Hauth; injection Hthrow as <-.
    + split; [|done]. unfold auth_required_message. by apply isAuthError_app.
    + done.
  - exfalso. revert Hthrow.
    destruct (find_text (content r)) as [c|]; [|done].
    destruct (c_text c) as [t|]; [|done].
    destruct (String.eqb t ""); [done|]. by destruct (JSON_parse t).
Qed.

Lemma thrown_message_keeps_verdict_witness :
  isAuthError (auth_required_message "401 Unauthorized") = true.
Proof.
  destruct (thrown_message_keeps_verdict Json.parse (failing_server "401 Unauthorized")
              "list-calendars" [] fresh_world 50%N
              (ToolResponse true [text_item "401 Unauthorized"])
              (auth_required_message "401 Unauthorized") eq_refl eq_refl) as [H _].
  exact H.
Defined.

Lemma startsWith_app_diverge (op p rest : string) :
  startsWith op p = false → startsWith p op = false →
  startsWith (op +:+ rest) p = false.
Proof.
  revert op. induction p as [|a p IH]; intros [|b op]; simpl; try done.
  destruct (decide (a = b)) as [->|Hne]; [|done].
  rewrite decide_True by done. apply IH.
Qed.

Lemma key_diverges (operation p : string) (params : obj) :
  startsWith operation p = false → startsWith p operation = false →
  startsWith (createCacheKey operation params) p = false.
Proof. apply startsWith_app_diverge. Qed.

(** A read whose operation a write leaves alone has a key that no pattern
    of the write matches and that is not the detail key the write
    removes. *)
Lemma untouched_key (c : write_call) (r : read_call) (s : cache_state tool_value) :
  In (read_operation r) (untouched c) →
  store (invalidations c s) !! read_key r = store s !! read_key r.
Proof.
  assert (Hdetail : ∀ operation params key,
            startsWith key operation = false →
            createCacheKey operation params ≠ key).
  { intros operation params key Hk <-. by rewrite createCacheKey_startsWith in Hk. }
  intros Hin.
  destruct c, r; simpl in Hin;
    repeat (destruct Hin as [Hin|Hin]; [try discriminate Hin|]); try contradiction;
    unfold invalidations, event_calendar, read_key;
    rewrite ?lookup_invalidate, ?lookup_invalidatePattern; unfold test;
    repeat match goal with
    | |- context [startsWith (createCacheKey ?o ?ps) ?p] =>
      rewrite (key_diverges o p ps eq_refl eq_refl)
    | |- context [startsWith ?k ?p] =>
      change (startsWith k p) with false
    | |- context [decide (createCacheKey ?o ?ps = createCacheKey ?o' ?ps')] =>
      rewrite (decide_False (P := createCacheKey o ps = createCacheKey o' ps'))
        by (apply Hdetail, key_diverges; reflexivity)
    | |- context [decide (createCacheKey ?o ?ps = ?k)] =>
      rewrite (decide_False (P := createCacheKey o ps = k))
        by (apply Hdetail; reflexivity)
    end; reflexivity.
Qed.

(** X14.  A successful write only removes cache entries: it adds none,
    changes none, and leaves the cache switched on or off as it was.  It
    never removes the cached folder list, calendar list, contacts, tasks or
    search results; a mail write removes no calendar entry and a calendar
    write no mail entry; sending mail leaves every folder listing cached,
    the Sent Items listing included. *)
Theorem write_only_removes JSON_parse server c w v w' :
  run_write JSON_parse server c w = (Ok v, w') →
  (∀ key, store (cache w') !! key = None ∨
          store (cache w') !! key = store (cache w) !! key) ∧
  enabled (cache w') = enabled (cache w) ∧
  (∀ r, In (read_operation r) (untouched c) →
        store (cache w') !! read_key r = store (cache w) !! read_key r).
Proof.
  rewrite run_write_eq.
  destruct (callTool _ _ _ _ w) as [[v1|e1] w1] eqn:Hcall; intros [= <- <-].
  apply callTool_frame in Hcall as (Hc & _ & _). simpl. rewrite Hc.
  split; [|split].
  - intros key. destruct c; unfold invalidations;
      rewrite ?lookup_invalidate, ?lookup_invalidatePattern;
      repeat match goal with
      | |- context [decide ?P] => destruct (decide P)
      | |- context [test ?p ?k] => destruct (test p k)
      end; auto.
  - by destruct c.
  - intros r. apply untouched_key.
Qed.

(** A successful [send-mail] leaves a cached calendar view in place. *)
Lemma write_only_removes_witness :
  store (cache (run_write Json.parse ok_server (SendMail "a@b.com" "hi" "body" None)
                  event_cached).2) !! read_key (Cli.get_event "e1" (VStr "calA")) =
  store (cache event_cached) !! read_key (Cli.get_event "e1" (VStr "calA")).
Proof.
  destruct (write_only_removes Json.parse ok_server (SendMail "a@b.com" "hi" "body" None)
              event_cached (RawText "done send-mail") _ eq_refl) as (_ & _ & H).
  apply (H (Cli.get_event "e1" (VStr "calA"))). vm_compute. tauto.
Defined.

End FacadeMore.
